(** * pandas-ai: the generated-code execution engine and the text-generation
      client, embedded shallowly and checked against their specification.

    Sources embedded here:
    - [pandasai/pipelines/chat/code_execution.py]  (class [CodeExecution])
    - [pandasai_huggingface/huggingface_text_gen.py] (class [HuggingFaceTextGen])

    Python values are modelled as follows.  A [str] is a [string]; an [int]
    is a [Z] (a list position is a [nat]); a [dict] with string keys is a
    [gmap string _]; a [list] is a [list]; [None] inside a list of tables is
    [None] of an [option].  An object (a data frame, a connector) is named
    by a reference, and equality of references stands for Python's [is].
    An exception that leaves a function is the [Raise] outcome.

    Every call the engine makes outside itself may raise: the executed
    code, a connector's [execute()] and [pandas_df], the validators, the
    serializer, the logger, both callbacks.  [self.logger] is
    [kwargs.get("logger")] and so may be [None]. *)

From Stdlib Require Import ZArith Lia.
From stdpp Require Import base option list strings gmap pretty sorting.
From Equations Require Import Equations.

Set Default Proof Using "Type".

(** ** Python string primitives *)

(** [sub in s] *)
Fixpoint contains (sub s : string) : bool :=
  String.prefix sub s ||
  match s with
  | EmptyString => false
  | String _ s' => contains sub s'
  end.

(** [s.index(sub)]: the lowest start of an occurrence; [None] stands for the
    [ValueError] that Python raises when there is none. *)
Fixpoint index (sub s : string) : option nat :=
  if String.prefix sub s then Some 0
  else match s with
       | EmptyString => None
       | String _ s' => S <$> index sub s'
       end.

(** [s[:n]] for [0 <= n] *)
Fixpoint slice_to (n : nat) (s : string) : string :=
  match n, s with
  | S n', String c s' => String c (slice_to n' s')
  | _, _ => EmptyString
  end.

(** [str(i)] of an integer and of a list position *)
Definition str_of_int (i : Z) : string := pretty i.
Definition str_of_nat (i : nat) : string := pretty i.

(** ** huggingface_text_gen.py *)

(** The inference client ([text_generation.Client]) and the base class's
    [prepend_system_prompt] are collaborators outside the repository's
    sources; a call is judged for any behaviour of them. *)
Class InferenceClient := {
  prepend_system_prompt : string → string;
  (* client.generate(prompt, **params).generated_text *)
  generate : string → list string → string;
  (* [chunk.template for chunk in client.generate_stream(prompt, **params)] *)
  generate_stream : string → list string → list string
}.

Record HuggingFaceTextGen := {
  stop_sequences : list string;
  streaming : bool
}.

(** One round of the loop at lines 129-133:
    [if stop_seq in text: text = text[: text.index(stop_seq)]]. *)
Definition strip_stop_seq (text : option string) (stop_seq : string)
  : option string :=
  text ← text;
  if contains stop_seq text
  then i ← index stop_seq text; Some (slice_to i text)
  else Some text.

(** [HuggingFaceTextGen.call]; [prompt] is [instruction.to_string()].
    [None] is an uncaught [ValueError] of [str.index]. *)
Definition call `{InferenceClient} (self : HuggingFaceTextGen)
    (prompt : string) : option string :=
  let prompt := prepend_system_prompt prompt in
  if streaming self
  then Some (foldr String.append "" (generate_stream prompt (stop_sequences self)))
  else
    let generated_text := generate prompt (stop_sequences self) in
    match stop_sequences self with
    | [] => Some generated_text
    | _ :: _ => foldl strip_stop_seq (Some generated_text) (stop_sequences self)
    end.

(** The claim's words for the same loop: an occurrence, the cut at the first
    occurrence, and the cuts applied in list order. *)
Definition occurs (sub s : string) : Prop :=
  ∃ a b, s = a +:+ sub +:+ b.

Definition cut_at_first (stop_seq text r : string) : Prop :=
  (¬ occurs stop_seq text ∧ r = text) ∨
  (∃ b, text = r +:+ stop_seq +:+ b ∧
        ∀ a' b', text = a' +:+ stop_seq +:+ b' →
                 String.length r ≤ String.length a').

Inductive cut_in_order : list string → string → string → Prop :=
| cut_nil text : cut_in_order [] text text
| cut_cons stop_seq rest text text' r :
    cut_at_first stop_seq text text' →
    cut_in_order rest text' r →
    cut_in_order (stop_seq :: rest) text r.

(** ** Exceptions and outcomes *)

Inductive exn :=
| AttributeError
| IndexError
| NoResultFoundError (msg : string)
| InvalidLLMOutputType (errors : list string)
| InvalidOutputValueMismatch (msg : string)
| OtherException (diagnostic : string)   (* any other subclass of Exception *)
| NonException (diagnostic : string).    (* KeyboardInterrupt, SystemExit, ...:
                                            BaseException but not Exception *)

(** [isinstance(e, Exception)]: what [except Exception] catches *)
Definition is_Exception (e : exn) : bool :=
  match e with NonException _ => false | _ => true end.

Inductive outcome (A : Type) :=
| Return (a : A)
| Raise (e : exn).
Arguments Return {A} a.
Arguments Raise {A} e.

#[global] Instance outcome_ret : MRet outcome := λ A a, Return a.
#[global] Instance outcome_bind : MBind outcome := λ A B f m,
  match m with Return a => f a | Raise e => Raise e end.

(** ** The [ast] nodes the provenance utilities inspect *)

Inductive constant :=
| CInt (z : Z)
| CStr (s : string)
| CBool (b : bool)
| CNone.

(** Node classes without a field named [value], [id], [attr] or [func]
    behave like [UnaryOp], [Slice] and [Tuple] below; the other classes with
    a [value] field ([Await], [Yield], [NamedExpr]) behave like [Starred]. *)
#[warnings="-register-all"] Inductive expr :=
| Constant (value : constant)
| Name (id : string)
| Attribute (value : expr) (attr : string)
| Subscript (value : expr) (slice : expr)
| Call (func : expr) (args : list expr)
| Starred (value : expr)
| UnaryOp (operand : expr)
| Slice (lower upper step : option expr)
| Tuple (elts : list expr).

(** An attribute read returns a node or a plain Python value. *)
Inductive pyobj :=
| ONode (node : expr)
| OConst (c : constant).

Definition str (s : string) : pyobj := OConst (CStr s).

(** [o.value], [o.id], [o.attr]: [None] is Python's [AttributeError]. *)
Definition get_value (o : pyobj) : option pyobj :=
  match o with
  | ONode (Constant c) => Some (OConst c)
  | ONode (Attribute v _) | ONode (Subscript v _) | ONode (Starred v) =>
      Some (ONode v)
  | _ => None
  end.

Definition get_id (o : pyobj) : option string :=
  match o with ONode (Name id) => Some id | _ => None end.

Definition get_attr (o : pyobj) : option string :=
  match o with ONode (Attribute _ attr) => Some attr | _ => None end.

(** How a generator ends: exhausted, or by an exception raised inside it. *)
Inductive gen_end :=
| Exhausted
| Raised (e : exn).

(** [CodeExecution._tokenize_operand]: the tokens yielded, in order, and how
    the generator ends.  The four [if]s test disjoint node classes. *)
Fixpoint _tokenize_operand (operand_node : expr) : list pyobj * gen_end :=
  match operand_node with
  | Call func _ =>
      match get_attr (ONode func) with
      | Some attr => ([str attr], Exhausted)
      | None => ([], Raised AttributeError)
      end
  | Subscript value slice =>
      match get_value (ONode slice) with
      | None => ([], Raised AttributeError)
      | Some slice_ =>
          match _tokenize_operand value with
          | (tokens, Exhausted) => (tokens ++ [slice_], Exhausted)
          | (tokens, Raised e) => (tokens, Raised e)
          end
      end
  | Name id => ([str id], Exhausted)
  | Constant value => ([OConst value], Exhausted)
  | _ => ([], Exhausted)
  end.

(** [list(gen)] *)
Definition list_of_gen (g : list pyobj * gen_end) : outcome (list pyobj) :=
  match g with
  | (tokens, Exhausted) => Return tokens
  | (_, Raised e) => Raise e
  end.

(** A chain of literal subscripts [base[c1][c2]...[cn]]. *)
Definition subscripts (base : expr) (indices : list constant) : expr :=
  foldl (λ e c, Subscript e (Constant c)) base indices.

Record Assign := {
  targets : list expr;
  assign_value : expr;
  lineno : Z
}.

(** The text an f-string puts for a value; the [repr] of a node object
    carries its address and is left to [node_repr]. *)
Class ObjectRepr := node_repr : expr → string.

Definition format_value `{ObjectRepr} (o : pyobj) : string :=
  match o with
  | OConst (CInt z) => str_of_int z
  | OConst (CStr s) => s
  | OConst (CBool true) => "True"
  | OConst (CBool false) => "False"
  | OConst CNone => "None"
  | ONode e => node_repr e
  end.

(** [sorted(assignments, key=lambda node: node.lineno)]: Python's sort is
    stable, and so is this insertion sort. *)
Fixpoint insert_by_lineno (a : Assign) (l : list Assign) : list Assign :=
  match l with
  | [] => [a]
  | b :: l' =>
      if (lineno a <=? lineno b)%Z then a :: b :: l'
      else b :: insert_by_lineno a l'
  end.

Definition sorted_by_lineno (l : list Assign) : list Assign :=
  foldr insert_by_lineno [] l.

Definition lift_attr {A} (o : option A) : outcome A :=
  match o with Some a => Return a | None => Raise AttributeError end.

(** The body of the [try] at lines 308-312: the new [nearest_assignment]. *)
Definition try_assignment `{ObjectRepr} (assignment : Assign)
    (target_name : string) (nearest_assignment : option string)
  : outcome (option string) :=
  let is_subscript :=
    match assign_value assignment with Subscript _ _ => true | _ => false end in
  right_value ← lift_attr (get_value (ONode (assign_value assignment)));
  right_id ← lift_attr (get_id right_value);
  let dfs_on_the_right := bool_decide (right_id = "dfs") in
  target ← match targets assignment !! 0%nat with
            | Some t => Return t
            | None => Raise IndexError
            end;
  target_id ← lift_attr (get_id (ONode target));
  let assign_to_target := bool_decide (target_id = target_name) in
  if is_subscript && dfs_on_the_right && assign_to_target then
    match assign_value assignment with
    | Subscript _ slice =>
        index_value ← lift_attr (get_value (ONode slice));
        Return (Some ("dfs[" +:+ format_value index_value +:+ "]"))
    | _ => Return nearest_assignment
    end
  else Return nearest_assignment.

(** The [for] loop at lines 304-314.  When the list is used up the function
    has no [return] left to run and gives [None]. *)
Fixpoint nearest_loop `{ObjectRepr} (current_lineno : Z)
    (assignments : list Assign) (target_name : string)
    (nearest_assignment : option string) : outcome (option string) :=
  match assignments with
  | [] => Return None
  | assignment :: rest =>
      if (lineno assignment >? current_lineno)%Z then Return nearest_assignment
      else match try_assignment assignment target_name nearest_assignment with
           | Return nearest' =>
               nearest_loop current_lineno rest target_name nearest'
           | Raise AttributeError =>
               nearest_loop current_lineno rest target_name nearest_assignment
           | Raise e => Raise e
           end
  end.

(** [CodeExecution._get_df_id_by_nearest_assignment] *)
Definition _get_df_id_by_nearest_assignment `{ObjectRepr}
    (current_lineno : Z) (assignments : list Assign) (target_name : string)
  : outcome (option string) :=
  let nearest_assignment := None in
  let assignments := sorted_by_lineno assignments in
  nearest_loop current_lineno assignments target_name nearest_assignment.

(** ** code_execution.py: the engine *)

(** A reference to a Python object; equality of references is [is]. *)
Definition ref := nat.

(** A table of [self._dfs]: [isinstance(df, pd.DataFrame)] holds of the
    first kind; the second kind has [execute()] and [pandas_df]. *)
Inductive Table :=
| InMemory (df : ref)
| Lazy (connector : ref).

Definition table_ref (t : Table) : ref :=
  match t with InMemory r | Lazy r => r end.

(** Values bound in the execution namespace. *)
#[warnings="-register-all"] Inductive value :=
| VNone
| VObj (r : ref)
| VStr (s : string)
| VList (items : list value)
| VBoundMethod (self : ref) (name : string).

Inductive event :=
| ExecuteCode (code : string)            (* execute_code is entered *)
| Fetch (position : nat) (connector : ref) (* df.execute() on that table *)
| LogError (msg : string)
| LogWarning (retry_count : Z)
| OnFailure (code traceback_errors : string)
| OnRetry (code : string) (e : exn).

(** Everything outside the engine: the interpreter behind [exec], the
    connectors, the output validator, the serializer.  None of it is under
    the repository's sources read here, so the engine is judged for every
    behaviour of it; [World] is the state those collaborators share. *)
Class Host := {
  World : Type;
  (* df.execute() *)
  connector_execute : ref → World → outcome unit * World;
  (* df.pandas_df *)
  connector_pandas_df : ref → World → outcome ref;
  (* hasattr(df, "execute_direct_sql_query"), for a connector *)
  has_execute_direct_sql_query : ref → bool;
  (* helpers.optional.get_environment *)
  get_environment : list value → gmap string value;
  (* exec(code, environment): the namespace as the code leaves it *)
  py_exec : string → gmap string value → World
            → outcome (gmap string value) * World;
  (* OutputValidator.validate and OutputValidator.validate_result; a plot is
     checked against the files that exist *)
  validate : string → value → World → outcome (bool * list string);
  validate_result : value → World → outcome bool;
  (* the f-string of line 95 *)
  mismatch_message : value → outcome string;
  (* traceback.format_exc() while the exception is handled *)
  format_exc : exn → string;
  (* ResponseSerializer.serialize *)
  serialize : value → outcome value
}.

Record Config := {
  max_retries : Z;
  use_error_correction_framework : bool;
  direct_sql : bool
}.

(** The fields of [self] that [execute] reads, with [self.context]'s. *)
Record CodeExecution `{Host} := {
  _dfs : list Table;
  _config : Config;
  _additional_dependencies : list value;
  output_type : option string;
  (* kwargs.get("logger"): its log(message, level) *)
  logger : option (string → Z → World → outcome unit * World);
  on_failure : option (string → string → World → outcome unit * World);
  on_retry : option (string → exn → World → outcome string * World)
}.

Record LogicUnitOutput := {
  output : value;
  success : bool;
  message : string;
  metadata : gmap string value;
  final_track_output : bool
}.

(** The engine's state: the world and the calls made so far, oldest first. *)
Record State `{Host} := {
  world : World;
  trace : list event
}.

Definition M `{Host} (A : Type) : Type := State → outcome A * State.

#[global] Instance M_ret `{Host} : MRet M := λ A a st, (Return a, st).
#[global] Instance M_bind `{Host} : MBind M := λ A B f m st,
  match m st with
  | (Return a, st') => f a st'
  | (Raise e, st') => (Raise e, st')
  end.

Definition raise `{Host} {A} (e : exn) : M A := λ st, (Raise e, st).

Definition emit `{Host} (ev : event) : M unit := λ st,
  (Return (), {| world := world st; trace := trace st ++ [ev] |}).

Definition on_world `{Host} (f : World → World) : M unit := λ st,
  (Return (), {| world := f (world st); trace := trace st |}).

Definition read_world `{Host} {A} (f : World → A) : M A := λ st,
  (Return (f (world st)), st).

Definition call_world `{Host} {A} (f : World → outcome A * World) : M A :=
  λ st, let '(r, w) := f (world st) in
        (r, {| world := w; trace := trace st |}).

Definition try_read_world `{Host} {A} (f : World → outcome A) : M A :=
  λ st, (f (world st), st).

Definition lift_outcome `{Host} {A} (r : outcome A) : M A := λ st, (r, st).

(** A run from a world in which the engine has done nothing yet. *)
Definition run `{Host} {A} (m : M A) (w : World) : outcome A * State :=
  m {| world := w; trace := [] |}.

Section engine.
Context `{Host}.

(** [CodeExecution._required_dfs] *)
Definition _required_dfs (self : CodeExecution) (code : string)
  : list (option Table) :=
  if contains "for df in dfs" code || contains "pd.concat(dfs" code
  then Some <$> _dfs self
  else
    let required_dfs :=
      imap (λ i df,
              if contains ("dfs[" +:+ str_of_nat i +:+ "]") code
              then Some df else None)
           (_dfs self) in
    (* required_dfs or self._dfs *)
    match required_dfs with
    | [] => Some <$> _dfs self
    | _ :: _ => required_dfs
    end.

(** [CodeExecution._get_originals]; [position] is where [dfs] starts in
    the list the loop runs over and only labels the [Fetch] events. *)
Fixpoint _get_originals_from (position : nat) (dfs : list (option Table))
  : M (list value) :=
  match dfs with
  | [] => mret []
  | df :: rest =>
      original ←
        match df with
        | None => mret VNone
        | Some (InMemory d) => mret (VObj d)
        | Some (Lazy c) =>
            emit (Fetch position c);;
            call_world (connector_execute c);;
            d ← try_read_world (connector_pandas_df c);
            mret (VObj d)
        end;
      original_dfs ← _get_originals_from (S position) rest;
      mret (original :: original_dfs)
  end.

Definition _get_originals (dfs : list (option Table)) : M (list value) :=
  _get_originals_from 0 dfs.

(** Lines 152-159 of [execute_code]: the namespace handed to [exec]. *)
Definition build_environment (self : CodeExecution) (code : string)
  : M (gmap string value) :=
  let dfs := _required_dfs self code in
  let environment := get_environment (_additional_dependencies self) in
  original_dfs ← _get_originals dfs;
  let environment := <["dfs" := VList original_dfs]> environment in
  let environment :=
    match original_dfs with
    | [df] => <["df" := df]> environment
    | _ => environment
    end in
  if direct_sql (_config self) then
    match _dfs self !! 0%nat with
    | Some (Lazy c) =>
        if has_execute_direct_sql_query c then
          mret (<["execute_sql_query" :=
                    VBoundMethod (table_ref (Lazy c))
                      "execute_direct_sql_query"]>
                  environment)
        else raise AttributeError
    (* a pandas DataFrame has no execute_direct_sql_query *)
    | Some (InMemory _) => raise AttributeError
    | None => raise IndexError
    end
  else mret environment.

(** [CodeExecution.execute_code] *)
Definition execute_code (self : CodeExecution) (code : string) : M value :=
  emit (ExecuteCode code);;
  environment ← build_environment self code;
  environment ← call_world (py_exec code environment);
  match environment !! "result" with
  | None => raise (NoResultFoundError "No result returned")
  | Some result => mret result
  end.

(** Lines 83-96: the exception that leaves the two validator checks, if
    any: the one they raise on a failed check, or one raised inside a
    validator or inside the f-string of line 95. *)
Definition validation_error (self : CodeExecution) (result : value)
    (w : World) : option exn :=
  let declared :=
    match output_type self with
    | Some output_helper =>
        if bool_decide (output_helper = "") then None
        else
          match validate output_helper result w with
          | Return (validation_ok, validation_errors) =>
              if validation_ok then None
              else Some (InvalidLLMOutputType validation_errors)
          | Raise e => Some e
          end
    | None => None
    end in
  match declared with
  | Some e => Some e
  | None =>
      match validate_result result w with
      | Return true => None
      | Return false =>
          match mismatch_message result with
          | Return msg => Some (InvalidOutputValueMismatch msg)
          | Raise e => Some e
          end
      | Raise e => Some e
      end
  end.

(** The [try] body of one attempt (lines 82-98): the value the variable
    [result] holds afterwards, and the exception that left the body. *)
Definition attempt (self : CodeExecution) (code_to_run : string)
    (result : value) (st : State) : (value * option exn) * State :=
  match execute_code self code_to_run st with
  | (Raise e, st') => ((result, Some e), st')
  | (Return result', st') =>
      ((result', validation_error self result' (world st')), st')
  end.

(** [CodeExecution._retry_run_code] *)
Definition _retry_run_code (self : CodeExecution) (code : string) (e : exn)
  : M string :=
  match on_retry self with
  | Some callback => emit (OnRetry code e);; call_world (callback code e)
  | None => raise e
  end.

(** [logging.ERROR] and [logging.WARNING] *)
Definition ERROR : Z := 40.
Definition WARNING : Z := 30.

(** [self.logger.log(message, level)]; on a logger that is [None] the
    attribute read raises.  [ev] records the call. *)
Definition log (self : CodeExecution) (message : string) (level : Z)
    (ev : event) : M unit :=
  match logger self with
  | Some logger_log => emit ev;; call_world (logger_log message level)
  | None => raise AttributeError
  end.

(** Lines 101-104: the failure is logged and the callback notified. *)
Definition notify (self : CodeExecution) (code_to_run : string) (e : exn)
  : M unit :=
  let traceback_errors := format_exc e in
  log self ("Failed with error: " +:+ traceback_errors) ERROR
    (LogError traceback_errors);;
  match on_failure self with
  | Some callback =>
      emit (OnFailure code_to_run traceback_errors);;
      call_world (callback code_to_run traceback_errors)
  | None => mret ()
  end.

(** The [except Exception as e] block (lines 101-124): the next
    [code_to_run], or the exception that leaves [execute]. *)
Definition handler (self : CodeExecution) (retry_count : Z)
    (code_to_run : string) (e : exn) : M string :=
  notify self code_to_run e;;
  if negb (use_error_correction_framework (_config self))
     || (retry_count >=? max_retries (_config self))%Z
  then raise e
  else
    let retry_count := (retry_count + 1)%Z in
    log self
      ("Failed to execute code retrying with a correction framework "
       +:+ "[retry number: " +:+ str_of_int retry_count +:+ "]")
      WARNING (LogWarning retry_count);;
    _retry_run_code self code_to_run e.

(** The [while] loop of [execute] (lines 80-124). *)
Equations? retry_loop (self : CodeExecution) (retry_count : Z)
    (code_to_run : string) (result : value) (st : State)
  : outcome value * State
  by wf (Z.to_nat (max_retries (_config self) + 1 - retry_count)) lt :=
retry_loop self retry_count code_to_run result st
  with Z_le_gt_dec retry_count (max_retries (_config self)) := {
  | right _ => (Return result, st)
  | left _ with attempt self code_to_run result st := {
    | ((result', None), st') => (Return result', st')
    | ((result', Some e), st') with is_Exception e := {
      | false => (Raise e, st')
      | true with handler self retry_count code_to_run e st' := {
        | (Raise e', st'') => (Raise e', st'')
        | (Return code_to_run', st'') =>
            retry_loop self (retry_count + 1) code_to_run' result' st''
        }
      }
    }
  }.
Proof. lia. Qed.

(** [CodeExecution.execute] *)
Definition execute (self : CodeExecution) (input : string)
  : M LogicUnitOutput :=
  let retry_count := 0%Z in
  let code_to_run := input in
  let result := VNone in
  result ← retry_loop self retry_count code_to_run result;
  serialized ← lift_outcome (serialize result);
  mret {| output := result;
          success := true;
          message := "Code Executed Successfully";
          metadata := {[ "content_type" := VStr "response";
                         "value" := serialized ]};
          final_track_output := true |}.

(** The [Fetch] events [_get_originals_from] leaves, read off the list. *)
Fixpoint fetches_from (position : nat) (dfs : list (option Table))
  : list event :=
  match dfs with
  | [] => []
  | Some (Lazy c) :: rest => Fetch position c :: fetches_from (S position) rest
  | _ :: rest => fetches_from (S position) rest
  end.

(** The number of attempts: the invocations of [execute_code]. *)
Definition is_attempt (ev : event) : bool :=
  match ev with ExecuteCode _ => true | _ => false end.

Definition attempts (tr : list event) : nat :=
  length (filter (λ ev, is_attempt ev = true) tr).

End engine.

(** The states in which one call of [execute], on [input] from world [w],
    stands at the head of its loop: the start, and the state after each
    failed attempt whose handler came back with new code. *)
Inductive loop_state `{Host} (self : CodeExecution) (input : string)
    (w : World) : Z → string → value → State → Prop :=
| loop_start :
    loop_state self input w 0 input VNone {| world := w; trace := [] |}
| loop_retry retry_count code_to_run result st result' e st' code_to_run' st'' :
    loop_state self input w retry_count code_to_run result st →
    (retry_count ≤ max_retries (_config self))%Z →
    attempt self code_to_run result st = ((result', Some e), st') →
    is_Exception e = true →
    handler self retry_count code_to_run e st' = (Return code_to_run', st'') →
    loop_state self input w (retry_count + 1) code_to_run' result' st''.

(** The number of slots of the exposed sequence that hold a table. *)
Definition is_placeholder (v : value) : bool :=
  match v with VNone => true | _ => false end.

Definition non_empty_slots (original_dfs : list value) : nat :=
  length (filter (λ v, is_placeholder v = false) original_dfs).

(** ** What the provenance loop computes, read off each assignment *)

(** The label an assignment contributes for [target_name]: its right side is
    a subscript of the name [dfs] whose index has a [value], and its first
    target is the name [target_name]. *)
Definition label_of `{ObjectRepr} (target_name : string) (a : Assign)
  : option string :=
  match assign_value a, targets a with
  | Subscript (Name base) slice, Name target :: _ =>
      if bool_decide (base = "dfs") && bool_decide (target = target_name)
      then (λ v, "dfs[" +:+ format_value v +:+ "]")
             <$> get_value (ONode slice)
      else None
  | _, _ => None
  end.

(** One round of the loop on [nearest_assignment]. *)
Definition keep_or_relabel `{ObjectRepr} (target_name : string)
    (nearest_assignment : option string) (a : Assign) : option string :=
  match label_of target_name a with
  | Some label => Some label
  | None => nearest_assignment
  end.

Definition before_or_at (current_lineno : Z) (a : Assign) : Prop :=
  (lineno a ≤ current_lineno)%Z.

Definition by_lineno (a b : Assign) : Prop := (lineno a ≤ lineno b)%Z.

(** ** Readings of the engine's trace and of the sandbox's slots *)

(** How a slot of the exposed sequence stands to the slot it was built from:
    an absence marker stays, an in-memory table is passed on as the same
    object, a lazily-backed table gives a frame its [pandas_df] returned. *)
Definition slot_of `{Host} (df : option Table) (original : value) : Prop :=
  match df with
  | None => original = VNone
  | Some (InMemory d) => original = VObj d
  | Some (Lazy c) =>
      ∃ d w, connector_pandas_df c w = Return d ∧ original = VObj d
  end.

(** The sandbox rule in the specification's words (section 4.2), for a full
    table list: an in-memory table passes through unchanged; a lazily-backed
    table is fetched and then its in-memory projection is used.  A call
    that raises ends the run. *)
Fixpoint fetch_tables `{Host} (tables : list Table) (w : World)
  : outcome (list value) * World :=
  match tables with
  | [] => (Return [], w)
  | InMemory d :: rest =>
      let '(r, w') := fetch_tables rest w in
      (originals ← r; Return (VObj d :: originals), w')
  | Lazy c :: rest =>
      match connector_execute c w with
      | (Raise e, w1) => (Raise e, w1)
      | (Return _, w1) =>
          match connector_pandas_df c w1 with
          | Raise e => (Raise e, w1)
          | Return d =>
              let '(r, w') := fetch_tables rest w1 in
              (originals ← r; Return (VObj d :: originals), w')
          end
      end
  end.

(** The logger is there and its [log] returns, and so does the
    failure-notification callback when there is one. *)
Definition notifications_return `{Host} (self : CodeExecution) : Prop :=
  (∃ logger_log, logger self = Some logger_log
                 ∧ ∀ message level w, (logger_log message level w).1 = Return ())
  ∧ (∀ callback, on_failure self = Some callback →
       ∀ code traceback_errors w,
         (callback code traceback_errors w).1 = Return ()).

Definition is_lazy (df : option Table) : bool :=
  match df with Some (Lazy _) => true | _ => false end.

(** The positions fetched, in the order of the calls. *)
Definition fetched_positions (tr : list event) : list nat :=
  omap (λ ev, match ev with Fetch i _ => Some i | _ => None end) tr.

(** The number of calls of the corrector ([on_retry]). *)
Definition is_corrector_call (ev : event) : bool :=
  match ev with OnRetry _ _ => true | _ => false end.

Definition corrector_calls (tr : list event) : nat :=
  length (filter (λ ev, is_corrector_call ev = true) tr).

(** The calls of the [except] block other than the one to the corrector:
    the two [logger.log] calls and the failure callback. *)
Definition is_notice (ev : event) : bool :=
  match ev with
  | LogError _ | LogWarning _ | OnFailure _ _ => true
  | _ => false
  end.

(** ** huggingface_text_gen.py: construction and default parameters *)

(** The values the client's attributes take.  A float is kept as the literal
    that wrote it: the code only passes it on. *)
Inductive attr_value :=
| AInt (z : Z)
| AFloat (literal : string)
| ABool (b : bool)
| AStr (s : string)
| AStrs (l : list string)
| ANone
| AClient (base_url : string) (timeout : attr_value).

(** [HuggingFaceTextGen.__annotations__] (lines 34-47) *)
Definition annotations : list string :=
  ["max_new_tokens"; "top_k"; "top_p"; "typical_p"; "temperature";
   "repetition_penalty"; "truncate"; "stop_sequences"; "seed"; "do_sample";
   "inference_server_url"; "streaming"; "timeout"; "client"].

(** The class attributes (lines 34-46); [client] has none. *)
Definition class_defaults : gmap string attr_value :=
  list_to_map
    [("max_new_tokens", AInt 1024); ("top_k", ANone); ("top_p", AFloat "0.8");
     ("typical_p", AFloat "0.8"); ("temperature", AFloat "1e-3");
     ("repetition_penalty", ANone); ("truncate", ANone);
     ("stop_sequences", AStrs []); ("seed", ANone); ("do_sample", ABool false);
     ("inference_server_url", AStr ""); ("streaming", ABool false);
     ("timeout", AInt 120)].

(** [self.<name>]: the instance's own attribute, else the class's; [None] is
    [AttributeError]. *)
Definition getattr (self : gmap string attr_value) (name : string)
  : option attr_value :=
  match self !! name with
  | Some v => Some v
  | None => class_defaults !! name
  end.

(** One round of the loop at lines 65-67. *)
Definition set_if_annotated (self : gmap string attr_value)
    (item : string * attr_value) : gmap string attr_value :=
  if bool_decide (item.1 ∈ annotations) then <[item.1 := item.2]> self
  else self.

(** [HuggingFaceTextGen.__init__]: the instance's attributes afterwards.
    [installed] tells whether [import text_generation] succeeds; [kwargs]
    holds the keyword arguments in the order of [kwargs.items()]. *)
Definition __init__ (installed : bool) (inference_server_url : string)
    (kwargs : list (string * attr_value))
  : outcome (gmap string attr_value) :=
  if installed then
    let self := foldl set_if_annotated ∅ kwargs in
    match getattr self "timeout" with
    | Some timeout =>
        Return (<["client" := AClient inference_server_url timeout]> self)
    | None => Raise AttributeError
    end
  else
    Raise (OtherException
             ("Could not import text_generation python package. "
              +:+ "Please install it with `pip install text_generation`.")).

(** The keys of [_default_params], in the order of lines 84-93. *)
Definition default_param_names : list string :=
  ["max_new_tokens"; "top_k"; "top_p"; "typical_p"; "temperature";
   "repetition_penalty"; "truncate"; "stop_sequences"; "do_sample"; "seed"].

(** [HuggingFaceTextGen._default_params] *)
Definition _default_params (self : gmap string attr_value)
  : option (gmap string attr_value) :=
  items ← mapM (λ name, v ← getattr self name; Some (name, v))
             default_param_names;
  Some (list_to_map items).

(** ** Concrete collaborators, for the examples *)

(** A client that answers with the prompt itself. *)
Definition echo_client : InferenceClient := {|
  prepend_system_prompt := λ prompt, prompt;
  generate := λ prompt _, prompt;
  generate_stream := λ prompt _, [prompt]
|}.

(** An interpreter for a few snippets: a snippet that mentions [raise]
    fails, one that mentions [result =] binds [result] to its own text, any
    other leaves the namespace as it found it.  Fetching a connector counts
    up the world, and the frame behind connector [c] is object [c + 100];
    connector 0 is out of reach and its fetch fails; connector 9 is one
    without [execute_direct_sql_query]. *)
Definition demo_host : Host := {|
  World := nat;
  connector_execute := λ c w,
    match c with
    | 0 => (Raise (OtherException "connection refused"), w)
    | _ => (Return (), S w)
    end;
  connector_pandas_df := λ c _, Return (c + 100);
  has_execute_direct_sql_query := λ c, bool_decide (c ≠ 9);
  get_environment := λ _, ∅;
  py_exec := λ code environment w,
    if contains "raise" code then (Raise (OtherException "boom"), w)
    else if contains "result =" code
         then (Return (<["result" := VStr code]> environment), w)
         else (Return environment, w);
  validate := λ _ _ _, Return (true, []);
  validate_result := λ _ _, Return true;
  mismatch_message := λ _, Return "Value type must match";
  format_exc := λ _, "Traceback (most recent call last)";
  serialize := λ v, Return v
|}.

Definition demo_engine (dfs : list Table) (retries : Z) (correct : bool)
  : CodeExecution (H:=demo_host) := {|
  _dfs := dfs;
  _config := {| max_retries := retries;
                use_error_correction_framework := correct;
                direct_sql := false |};
  _additional_dependencies := [];
  output_type := None;
  logger := Some (λ _ _ w, (Return (), w));
  on_failure := None;
  (* a corrector that hands the failing code back *)
  on_retry := Some (λ code _ w, (Return code, w))
|}.

Definition demo_state (w : nat) (tr : list event) : State (H:=demo_host) :=
  @Build_State demo_host w tr.

(** The address in a node's [repr] is left out. *)
Definition plain_repr : ObjectRepr := λ _, "<ast.AST object>".

(** [x = dfs[2]] on line 1, and an unrelated [y = 0] on line 3. *)
Definition x_is_dfs2 : Assign :=
  {| targets := [Name "x"];
     assign_value := Subscript (Name "dfs") (Constant (CInt 2));
     lineno := 1 |}.

Definition y_is_0 : Assign :=
  {| targets := [Name "y"]; assign_value := Constant (CInt 0); lineno := 3 |}.

(** * Theorems *)

(** ** Strings *)

#[local] Arguments String.append !_ _ / : simpl nomatch.
#[local] Arguments String.length !_ / : simpl nomatch.

Lemma app_assoc_str (s1 s2 s3 : string) :
  (s1 +:+ s2) +:+ s3 = s1 +:+ s2 +:+ s3.
Proof. induction s1 as [|c s1 IH]; [done | simpl; by f_equal]. Qed.

Lemma app_nil_r_str (s : string) : s +:+ "" = s.
Proof. induction s as [|c s IH]; [done | simpl; by f_equal]. Qed.

Lemma app_length_str (s1 s2 : string) :
  String.length (s1 +:+ s2) = String.length s1 + String.length s2.
Proof. induction s1 as [|c s1 IH]; [done | simpl; by f_equal]. Qed.

Lemma prefix_app (sub s : string) :
  String.prefix sub s = true ↔ ∃ b, s = sub +:+ b.
Proof.
  revert s. induction sub as [|c sub IH]; intros s; simpl.
  - destruct s; split; eauto.
  - destruct s as [|d s]; simpl.
    + split; [done | intros [b Hb]; discriminate].
    + destruct (Ascii.ascii_dec c d) as [->|Hne].
      * rewrite IH. split; intros [b Hb]; exists b; congruence.
      * split; [done | intros [b Hb]; congruence].
Qed.

Lemma contains_cons (sub : string) (c : Ascii.ascii) (s : string) :
  contains sub (String c s) = String.prefix sub (String c s) || contains sub s.
Proof. done. Qed.

Lemma contains_empty (sub : string) :
  contains sub "" = String.prefix sub "".
Proof. unfold contains. apply orb_false_r. Qed.

Lemma contains_occurs (sub s : string) :
  contains sub s = true ↔ occurs sub s.
Proof.
  induction s as [|c s IH].
  - rewrite contains_empty, prefix_app. split.
    + intros [b Hb]. by exists "", b.
    + intros ([|c a] & b & Hab); [by exists b | discriminate].
  - rewrite contains_cons, orb_true_iff, IH, prefix_app. split.
    + intros [[b Hb] | (a & b & Hab)].
      * by exists "", b.
      * exists (String c a), b. simpl. by rewrite Hab.
    + intros ([|d a] & b & Hab); simpl in Hab.
      * left. by exists b.
      * right. exists a, b. congruence.
Qed.

Lemma contains_false_occurs (sub s : string) :
  contains sub s = false ↔ ¬ occurs sub s.
Proof. rewrite <- contains_occurs. by destruct (contains sub s). Qed.

Lemma index_cons (sub : string) (c : Ascii.ascii) (s : string) :
  index sub (String c s) =
  if String.prefix sub (String c s) then Some 0 else S <$> index sub s.
Proof. done. Qed.

Lemma index_empty (sub : string) :
  index sub "" = if String.prefix sub "" then Some 0 else None.
Proof. done. Qed.

Lemma index_of_contained (sub s : string) :
  contains sub s = true → is_Some (index sub s).
Proof.
  induction s as [|c s IH].
  - rewrite contains_empty, index_empty. intros ->. eauto.
  - rewrite contains_cons, index_cons.
    destruct (String.prefix sub (String c s)); [eauto|].
    intros Hc. destruct (IH Hc) as [i ->]. simpl. eauto.
Qed.

Lemma index_first (sub s : string) (i : nat) :
  index sub s = Some i →
  String.length (slice_to i s) = i ∧
  (∃ b, s = slice_to i s +:+ sub +:+ b) ∧
  ∀ a' b', s = a' +:+ sub +:+ b' → i ≤ String.length a'.
Proof.
  revert i. induction s as [|c s IH]; intros i.
  - rewrite index_empty. destruct (String.prefix sub "") eqn:Hp; [|done].
    intros [= <-]. apply prefix_app in Hp. repeat split; [done | lia].
  - rewrite index_cons. destruct (String.prefix sub (String c s)) eqn:Hp.
    + intros [= <-]. apply prefix_app in Hp. repeat split; [done | lia].
    + destruct (index sub s) as [j|] eqn:Hj; [|done]. simpl.
      intros [= <-]. destruct (IH j eq_refl) as (Hlen & [b Hb] & Hmin).
      repeat split.
      * simpl. by rewrite Hlen.
      * exists b. simpl. by rewrite <- Hb.
      * intros [|d a'] b' Hab; simpl in Hab.
        -- assert (String.prefix sub (String c s) = true) as Hp'
             by (apply prefix_app; eauto).
           congruence.
        -- simpl. injection Hab as _ Hab. specialize (Hmin _ _ Hab). lia.
Qed.

Lemma strip_stop_seq_cut (stop_seq text : string) :
  ∃ r, strip_stop_seq (Some text) stop_seq = Some r
       ∧ cut_at_first stop_seq text r.
Proof.
  unfold strip_stop_seq. simpl.
  destruct (contains stop_seq text) eqn:Hc.
  - destruct (index_of_contained _ _ Hc) as [i Hi]. rewrite Hi. simpl.
    exists (slice_to i text). split; [done|]. right.
    destruct (index_first _ _ _ Hi) as (Hlen & [b Hb] & Hmin).
    exists b. split; [done|]. intros a' b' Hab. rewrite Hlen. eauto.
  - exists text. split; [done|]. left. split; [|done].
    by apply contains_false_occurs.
Qed.

Lemma strip_stop_seqs_cut (stops : list string) (text : string) :
  ∃ r, foldl strip_stop_seq (Some text) stops = Some r
       ∧ cut_in_order stops text r.
Proof.
  revert text. induction stops as [|s stops IH]; intros text; cbn [foldl].
  - exists text. split; [done | constructor].
  - destruct (strip_stop_seq_cut s text) as (text' & -> & Hcut).
    destruct (IH text') as (r & Hr & Hrest).
    exists r. split; [done | by econstructor].
Qed.

Lemma cut_at_first_prefix (stop_seq text r : string) :
  cut_at_first stop_seq text r → ∃ x, text = r +:+ x.
Proof.
  intros [[_ ->] | (b & Hb & _)]; [exists ""; by rewrite app_nil_r_str | eauto].
Qed.

Lemma cut_in_order_prefix (stops : list string) (text r : string) :
  cut_in_order stops text r → ∃ x, text = r +:+ x.
Proof.
  induction 1 as [text | s rest text text' r Hcut _ [x Hx]].
  - exists "". by rewrite app_nil_r_str.
  - destruct (cut_at_first_prefix _ _ _ Hcut) as [y Hy].
    exists (x +:+ y). by rewrite Hy, Hx, app_assoc_str.
Qed.

Lemma occurs_in_prefix (sub r x : string) :
  occurs sub r → occurs sub (r +:+ x).
Proof.
  intros (a & b & ->). exists a, (b +:+ x). by rewrite !app_assoc_str.
Qed.

Lemma cut_at_first_clean (stop_seq text r : string) :
  stop_seq ≠ "" → cut_at_first stop_seq text r → ¬ occurs stop_seq r.
Proof.
  intros Hne [[Hno ->] | (b & Hb & Hmin)]; [done|].
  intros (a' & b' & Hr).
  specialize (Hmin a' (b' +:+ stop_seq +:+ b)).
  rewrite Hb, Hr, !app_assoc_str in Hmin. specialize (Hmin eq_refl).
  rewrite !app_length_str in Hmin.
  destruct stop_seq; [done | simpl in Hmin; lia].
Qed.

Lemma cut_in_order_clean (stops : list string) (text r : string) :
  cut_in_order stops text r →
  ∀ s, s ∈ stops → s ≠ "" → ¬ occurs s r.
Proof.
  induction 1 as [text | s0 rest text text' r Hcut Hrest IH]; intros s Hin Hne.
  - by apply elem_of_nil in Hin.
  - apply elem_of_cons in Hin as [-> | Hin]; [|by apply IH].
    destruct (cut_in_order_prefix _ _ _ Hrest) as [x ->].
    intros Hocc. eapply cut_at_first_clean; [done.. |].
    by apply occurs_in_prefix.
Qed.


(** ** The text-generation client *)

Example call_order_matters :
  call (H:=echo_client) {| stop_sequences := ["cd"; "bc"]; streaming := false |}
       "abcd" = Some "ab"
  ∧ call (H:=echo_client) {| stop_sequences := ["bc"; "cd"]; streaming := false |}
       "abcd" = Some "a".
Proof. split; reflexivity. Qed.

(** C10, as stated, fails: with the empty string among the stop sequences
    the call returns the empty text, and Python's [in] finds the empty
    stop sequence in it. *)
Lemma call_empty_stop_sequence_occurs :
  let self := {| stop_sequences := [""]; streaming := false |} in
  streaming self = false
  ∧ stop_sequences self ≠ []
  ∧ "" ∈ stop_sequences self
  ∧ call (H:=echo_client) self "abc" = Some ""
  ∧ contains "" "" = true.
Proof.
  simpl. repeat split; [done | apply list_elem_of_singleton; done].
Qed.

(** C10, amended: a non-streaming call with a non-empty list of stop
    sequences returns a text; that text is got from the generated text by
    taking the stop sequences in list order, each one that occurs in the text
    cut so far cutting it at its first occurrence (wherever that is); and
    the returned text holds no occurrence of any non-empty stop sequence. *)
Theorem call_strips_stop_sequences `{InferenceClient}
    (self : HuggingFaceTextGen) (prompt : string) :
  streaming self = false →
  stop_sequences self ≠ [] →
  ∃ r, call self prompt = Some r
     ∧ cut_in_order (stop_sequences self)
         (generate (prepend_system_prompt prompt) (stop_sequences self)) r
     ∧ ∀ s, s ∈ stop_sequences self → s ≠ "" → contains s r = false.
Proof.
  intros Hstream Hstops. unfold call. rewrite Hstream.
  destruct (strip_stop_seqs_cut (stop_sequences self)
              (generate (prepend_system_prompt prompt) (stop_sequences self)))
    as (r & Hr & Hcut).
  exists r. split; [|split; [done|]].
  - destruct (stop_sequences self); [done | exact Hr].
  - intros s Hs Hne. apply contains_false_occurs.
    by eapply cut_in_order_clean.
Qed.

Lemma call_strips_stop_sequences_witness :
  let self := {| stop_sequences := ["cd"; "bc"]; streaming := false |} in
  streaming self = false
  ∧ stop_sequences self ≠ []
  ∧ ∃ r, call (H:=echo_client) self "abcd" = Some r
       ∧ cut_in_order (stop_sequences self) "abcd" r
       ∧ ∀ s, s ∈ stop_sequences self → s ≠ "" → contains s r = false.
Proof.
  split; [reflexivity | split; [discriminate |]].
  apply (call_strips_stop_sequences (H:=echo_client)
           {| stop_sequences := ["cd"; "bc"]; streaming := false |} "abcd");
    [reflexivity | discriminate].
Defined.

(** ** The provenance utilities *)

Lemma tokenize_subscripts (base : expr) (indices : list constant)
    (tokens : list pyobj) :
  _tokenize_operand base = (tokens, Exhausted) →
  _tokenize_operand (subscripts base indices)
  = (tokens ++ (OConst <$> indices), Exhausted).
Proof.
  revert base tokens. induction indices as [|c indices IH]; intros base tokens Hb.
  - simpl. by rewrite app_nil_r.
  - unfold subscripts. cbn [foldl]. fold (subscripts (Subscript base (Constant c)) indices).
    rewrite (IH _ (tokens ++ [OConst c])).
    + by rewrite <- app_assoc.
    + simpl. by rewrite Hb.
Qed.

(** C9, as stated, fails: on a call of a plain name, such as [print(x)], the
    generator yields nothing and ends with [AttributeError]; so does a
    subscript whose index is a name, such as [foo[i]]. *)
Lemma tokenize_plain_call_raises :
  _tokenize_operand (Call (Name "print") [Name "x"])
  = ([], Raised AttributeError)
  ∧ list_of_gen (_tokenize_operand (Call (Name "print") [Name "x"]))
  = Raise AttributeError
  ∧ list_of_gen (_tokenize_operand (Subscript (Name "foo") (Name "i")))
  = Raise AttributeError.
Proof. repeat split. Qed.

(** C9, amended: the tokens come base expression first and index last.  A
    call of an attribute yields the attribute's name; a subscript with a
    literal index yields the tokens of its base and then the literal, and so
    a chain of literal subscripts yields the base's tokens and then the
    indices from the innermost out; a bare name yields its identifier and a
    literal its value; [foo[2][1][0]] gives [foo, 2, 1, 0].  A call of
    anything but an attribute, and a subscript whose index has no [value],
    raise [AttributeError] before any token. *)
Theorem tokenize_operand_access_chain :
  (∀ value attr args,
     _tokenize_operand (Call (Attribute value attr) args)
     = ([str attr], Exhausted))
  ∧ (∀ base c tokens,
       _tokenize_operand base = (tokens, Exhausted) →
       _tokenize_operand (Subscript base (Constant c))
       = (tokens ++ [OConst c], Exhausted))
  ∧ (∀ base indices tokens,
       _tokenize_operand base = (tokens, Exhausted) →
       _tokenize_operand (subscripts base indices)
       = (tokens ++ (OConst <$> indices), Exhausted))
  ∧ (∀ id, _tokenize_operand (Name id) = ([str id], Exhausted))
  ∧ (∀ c, _tokenize_operand (Constant c) = ([OConst c], Exhausted))
  ∧ list_of_gen
      (_tokenize_operand (subscripts (Name "foo") [CInt 2; CInt 1; CInt 0]))
    = Return [str "foo"; OConst (CInt 2); OConst (CInt 1); OConst (CInt 0)]
  ∧ (∀ func args,
       get_attr (ONode func) = None →
       _tokenize_operand (Call func args) = ([], Raised AttributeError))
  ∧ (∀ base slice,
       get_value (ONode slice) = None →
       _tokenize_operand (Subscript base slice) = ([], Raised AttributeError)).
Proof.
  repeat apply conj; try done.
  - intros base c tokens Hb. simpl. by rewrite Hb.
  - apply tokenize_subscripts.
  - intros func args Hf. by destruct func.
  - intros base slice Hs. by destruct slice.
Qed.

Lemma tokenize_operand_access_chain_witness :
  _tokenize_operand (Name "dfs") = ([str "dfs"], Exhausted)
  ∧ _tokenize_operand (subscripts (Name "dfs") [CInt 0; CStr "a"])
    = ([str "dfs"] ++ (OConst <$> [CInt 0; CStr "a"]), Exhausted)
  ∧ get_attr (ONode (Name "len")) = None
  ∧ _tokenize_operand (Call (Name "len") []) = ([], Raised AttributeError).
Proof.
  split; [reflexivity|]. split.
  - apply (proj1 (proj2 (proj2 tokenize_operand_access_chain))). reflexivity.
  - split; [reflexivity|].
    apply (proj1 (proj2 (proj2 (proj2 (proj2 (proj2 (proj2
             tokenize_operand_access_chain))))))).
    reflexivity.
Defined.

Lemma insert_by_lineno_Forall (P : Assign → Prop) (a : Assign)
    (l : list Assign) :
  P a → Forall P l → Forall P (insert_by_lineno a l).
Proof.
  intros Ha. induction 1 as [|b l Hb Hl IH]; simpl.
  - by constructor.
  - destruct (lineno a <=? lineno b)%Z; repeat constructor; done.
Qed.

Lemma sorted_by_lineno_Forall (P : Assign → Prop) (l : list Assign) :
  Forall P l → Forall P (sorted_by_lineno l).
Proof.
  induction 1 as [|a l Ha Hl IH]; simpl; [constructor|].
  by apply insert_by_lineno_Forall.
Qed.

(** The loop hands a label back only from the [return] inside it, which
    needs an assignment after the current line: when every assignment is at
    or before the current line, no label is returned, whatever was found. *)
Lemma nearest_loop_all_before `{ObjectRepr} (current_lineno : Z)
    (assignments : list Assign) (target_name : string)
    (nearest_assignment : option string) :
  Forall (λ a, (lineno a ≤ current_lineno)%Z) assignments →
  nearest_loop current_lineno assignments target_name nearest_assignment
  = Return None
  ∨ nearest_loop current_lineno assignments target_name nearest_assignment
    = Raise IndexError.
Proof.
  intros Hall. revert nearest_assignment.
  induction Hall as [|a l Ha Hl IH]; intros nearest; simpl; [by left|].
  destruct (Z.gtb_spec (lineno a) current_lineno) as [Hgt|_]; [lia|].
  destruct (try_assignment a target_name nearest) as [n'|e] eqn:Htry;
    [apply IH|].
  assert (e = AttributeError ∨ e = IndexError) as [-> | ->]; [|apply IH|by right].
  unfold try_assignment in Htry.
  repeat (match type of Htry with
          | context [lift_attr ?o] => destruct o; simpl in Htry
          | context [match ?o with _ => _ end] => destruct o; simpl in Htry
          end; try (injection Htry as <-; auto); try discriminate).
Qed.

Lemma nearest_assignment_all_before `{ObjectRepr} (current_lineno : Z)
    (assignments : list Assign) (target_name : string) (label : string) :
  Forall (λ a, (lineno a ≤ current_lineno)%Z) assignments →
  _get_df_id_by_nearest_assignment current_lineno assignments target_name
  ≠ Return (Some label).
Proof.
  intros Hall. unfold _get_df_id_by_nearest_assignment.
  destruct (nearest_loop_all_before current_lineno
              (sorted_by_lineno assignments) target_name None) as [-> | ->];
    [by apply sorted_by_lineno_Forall | done..].
Qed.

(** C8 at the failing input: [x = dfs[2]] stands on line 1 and [x] is used on
    line 2.  The assignment is found, the list ends, and the function falls
    off its end with [None].  The same use is resolved to [dfs[2]] once some
    assignment, even an unrelated one, stands on a later line; a use before
    line 1 is not found. *)
Theorem nearest_assignment_lost_at_end :
  _get_df_id_by_nearest_assignment (H:=plain_repr) 2 [x_is_dfs2] "x"
  = Return None
  ∧ _get_df_id_by_nearest_assignment (H:=plain_repr) 2 [x_is_dfs2; y_is_0] "x"
    = Return (Some "dfs[2]")
  ∧ _get_df_id_by_nearest_assignment (H:=plain_repr) 0 [x_is_dfs2; y_is_0] "x"
    = Return None.
Proof. repeat split; vm_compute; reflexivity. Qed.

(** ** The engine *)

Ltac unfold_M :=
  unfold mbind, M_bind, mret, M_ret, raise, emit, on_world, read_world,
    call_world, try_read_world, lift_outcome in *; simpl in *.

Section engine_facts.
Context `{Host}.

(** A run of [_get_originals_from] leaves a prefix of the [Fetch] events of
    its list, and all of them when it returns. *)
Lemma get_originals_from_run (dfs : list (option Table)) :
  ∀ position st, ∃ r w tr,
    _get_originals_from position dfs st
    = (r, {| world := w; trace := trace st ++ tr |})
    ∧ tr `prefix_of` fetches_from position dfs
    ∧ ∀ original_dfs, r = Return original_dfs →
        tr = fetches_from position dfs
        ∧ length original_dfs = length dfs.
Proof.
  induction dfs as [|df dfs IH]; intros position [w tr].
  - exists (Return []), w, []. simpl. rewrite app_nil_r.
    split; [done|]. split; [done|]. by intros ? [= <-].
  - destruct df as [[d|c]|]; cbn [_get_originals_from fetches_from]; unfold_M.
    + destruct (IH (S position) {| world := w; trace := tr |})
        as ([vs|e] & w' & tr' & -> & Hpre & Hret); simpl.
      * exists (Return (VObj d :: vs)), w', tr'. split; [done|].
        split; [done|]. intros ? [= <-]. destruct (Hret vs eq_refl) as [-> Hlen].
        simpl. by rewrite Hlen.
      * exists (Raise e), w', tr'. by repeat split.
    + destruct (connector_execute c w) as [[[]|e] w1]; simpl.
      2:{ exists (Raise e), w1, [Fetch position c]. split; [done|].
          split; [by apply prefix_cons, prefix_nil | done]. }
      destruct (connector_pandas_df c w1) as [d|e]; simpl.
      2:{ exists (Raise e), w1, [Fetch position c]. split; [done|].
          split; [by apply prefix_cons, prefix_nil | done]. }
      destruct (IH (S position)
                  {| world := w1; trace := tr ++ [Fetch position c] |})
        as ([vs|e] & w' & tr' & -> & Hpre & Hret); simpl.
      * exists (Return (VObj d :: vs)), w', (Fetch position c :: tr').
        rewrite <- app_assoc. split; [done|].
        split; [by apply prefix_cons|].
        intros ? [= <-]. destruct (Hret vs eq_refl) as [-> Hlen].
        simpl. by rewrite Hlen.
      * exists (Raise e), w', (Fetch position c :: tr').
        rewrite <- app_assoc. split; [done|].
        split; [by apply prefix_cons | done].
    + destruct (IH (S position) {| world := w; trace := tr |})
        as ([vs|e] & w' & tr' & -> & Hpre & Hret); simpl.
      * exists (Return (VNone :: vs)), w', tr'. split; [done|].
        split; [done|]. intros ? [= <-]. destruct (Hret vs eq_refl) as [-> Hlen].
        simpl. by rewrite Hlen.
      * exists (Raise e), w', tr'. by repeat split.
Qed.

Lemma fetches_from_elem (dfs : list (option Table)) :
  ∀ position i c,
    Fetch i c ∈ fetches_from position dfs
    ↔ ∃ j, i = position + j ∧ dfs !! j = Some (Some (Lazy c)).
Proof.
  induction dfs as [|df dfs IH]; intros position i c.
  - simpl. split; [by intros ?%elem_of_nil | by intros (j & _ & ?)].
  - assert ((∃ j, i = position + j ∧ (df :: dfs) !! j = Some (Some (Lazy c)))
            ↔ (i = position ∧ df = Some (Lazy c))
              ∨ ∃ j, i = S position + j ∧ dfs !! j = Some (Some (Lazy c)))
      as ->.
    { split.
      - intros ([|j] & -> & Hj); simpl in Hj.
        + left. split; [lia | congruence].
        + right. exists j. split; [lia | done].
      - intros [[-> ->] | (j & -> & Hj)].
        + exists 0. split; [lia | done].
        + exists (S j). split; [lia | done]. }
    rewrite <- IH.
    destruct df as [[d|c']|]; cbn [fetches_from]; rewrite ?elem_of_cons.
    + split; [by right | by intros [[_ ?] | ?]].
    + split.
      * intros [[= -> ->] | Hin]; [by left | by right].
      * intros [[-> [= ->]] | Hin]; [by left | by right].
    + split; [by right | by intros [[_ ?] | ?]].
Qed.

Lemma fetches_from_attempts (dfs : list (option Table)) (position : nat) :
  attempts (fetches_from position dfs) = 0.
Proof.
  revert position. induction dfs as [|df dfs IH]; intros position; [done|].
  destruct df as [[d|c]|]; cbn [fetches_from]; apply IH.
Qed.

Lemma attempts_app (tr1 tr2 : list event) :
  attempts (tr1 ++ tr2) = attempts tr1 + attempts tr2.
Proof. unfold attempts. by rewrite filter_app, length_app. Qed.

(** What [_required_dfs] gives at each position when neither need-all
    idiom is in the code. *)
Lemma required_dfs_lookup (self : CodeExecution) (code : string) (i : nat) :
  contains "for df in dfs" code = false →
  contains "pd.concat(dfs" code = false →
  _required_dfs self code !! i
  = (λ df, if contains ("dfs[" +:+ str_of_nat i +:+ "]") code
           then Some df else None) <$> _dfs self !! i.
Proof.
  intros H1 H2. unfold _required_dfs. rewrite H1, H2. cbn [orb].
  destruct (_dfs self) as [|t dfs] eqn:Hdfs; [done|].
  rewrite <- (list_lookup_imap
               (λ i df, if contains ("dfs[" +:+ str_of_nat i +:+ "]") code
                        then Some df else None)).
  done.
Qed.

Lemma required_dfs_need_all (self : CodeExecution) (code : string) :
  contains "for df in dfs" code || contains "pd.concat(dfs" code = true →
  _required_dfs self code = Some <$> _dfs self.
Proof. intros Hc. unfold _required_dfs. by rewrite Hc. Qed.

Lemma required_dfs_length (self : CodeExecution) (code : string) :
  length (_required_dfs self code) = length (_dfs self).
Proof.
  unfold _required_dfs.
  destruct (_ || _); [by rewrite length_fmap|].
  destruct (imap _ _) eqn:Himap.
  - by rewrite length_fmap.
  - by rewrite <- Himap, length_imap.
Qed.

Lemma build_environment_run (self : CodeExecution) (code : string)
    (st : State) :
  ∃ r w tr,
    build_environment self code st
    = (r, {| world := w; trace := trace st ++ tr |})
    ∧ tr `prefix_of` fetches_from 0 (_required_dfs self code)
    ∧ ∀ environment, r = Return environment →
        tr = fetches_from 0 (_required_dfs self code)
        ∧ ∃ original_dfs,
            length original_dfs = length (_dfs self)
            ∧ environment !! "dfs" = Some (VList original_dfs)
            ∧ environment !! "df"
              = match original_dfs with
                | [df] => Some df
                | _ => get_environment (_additional_dependencies self) !! "df"
                end.
Proof.
  unfold build_environment, _get_originals. unfold_M.
  destruct (get_originals_from_run (_required_dfs self code) 0 st)
    as ([vs|e] & w & tr & -> & Hpre & Hret).
  2:{ exists (Raise e), w, tr. by repeat split. }
  destruct (Hret vs eq_refl) as [-> Hlen].
  rewrite required_dfs_length in Hlen.
  destruct (direct_sql (_config self));
    [destruct (_dfs self !! 0) as [[d|c]|];
     [|destruct (has_execute_direct_sql_query c)|]|];
    eexists _, w, _; (split; [reflexivity|]); (split; [done|]);
    intros environment [= <-]; (split; [done|]); exists vs;
    (split; [done|]);
    destruct vs as [|v [|v' vs]]; by simplify_map_eq.
Qed.

Lemma prefix_of_fetches_attempts (tr : list event)
    (dfs : list (option Table)) (position : nat) :
  tr `prefix_of` fetches_from position dfs → attempts tr = 0.
Proof.
  intros [k Hk]. pose proof (fetches_from_attempts dfs position) as Hall.
  rewrite Hk, attempts_app in Hall. lia.
Qed.

(** The trace of one [execute_code]: its own entry, then the fetches made,
    which are the first of those its required tables call for. *)
Lemma execute_code_trace (self : CodeExecution) (code : string) (st : State) :
  ∃ tr,
    trace (execute_code self code st).2 = trace st ++ ExecuteCode code :: tr
    ∧ tr `prefix_of` fetches_from 0 (_required_dfs self code).
Proof.
  unfold execute_code. unfold_M.
  destruct (build_environment_run self code
              {| world := world st; trace := trace st ++ [ExecuteCode code] |})
    as ([env|e] & w & tr & -> & Hpre & _); simpl; exists tr.
  - destruct (py_exec code env w) as [[env'|e] w']; simpl;
      [destruct (env' !! "result")|]; simpl; by rewrite <- app_assoc.
  - by rewrite <- app_assoc.
Qed.

Lemma execute_code_attempts (self : CodeExecution) (code : string)
    (st : State) :
  attempts (trace (execute_code self code st).2) = S (attempts (trace st)).
Proof.
  destruct (execute_code_trace self code st) as (tr & -> & Hpre).
  rewrite attempts_app.
  change (ExecuteCode code :: tr) with ([ExecuteCode code] ++ tr).
  rewrite attempts_app, (prefix_of_fetches_attempts _ _ _ Hpre).
  change (attempts [ExecuteCode code]) with 1. lia.
Qed.

(** Without a need-all idiom and without any [dfs[i]] in the code, every
    slot of the analyzer's answer is the absence marker. *)
Lemma required_dfs_unreferenced (self : CodeExecution) (code : string) :
  contains "for df in dfs" code = false →
  contains "pd.concat(dfs" code = false →
  (∀ i, i < length (_dfs self) →
        contains ("dfs[" +:+ str_of_nat i +:+ "]") code = false) →
  _required_dfs self code = replicate (length (_dfs self)) None.
Proof.
  intros H1 H2 Hno. apply list_eq. intros i.
  rewrite required_dfs_lookup by done.
  destruct (_dfs self !! i) as [t|] eqn:Hi; cbn [fmap option_fmap option_map].
  - apply lookup_lt_Some in Hi as Hlt. rewrite (Hno i Hlt).
    symmetry. by apply lookup_replicate_2.
  - symmetry. apply lookup_replicate_None.
    apply lookup_ge_None in Hi. lia.
Qed.

End engine_facts.

(** C3 at the failing input: one table, and code that reaches it through the
    alias [df] only.  No need-all idiom and no [dfs[0]] occur in the code, yet
    the analyzer answers with the absence marker in the only slot, and not
    with the table list: the list [[None]] is truthy, so the fallback
    [required_dfs or self._dfs] is not taken. *)
Theorem required_dfs_fallback_not_taken :
  let self := demo_engine [InMemory 1] 0 false in
  let code := "result = df.sum()" in
  _dfs self ≠ []
  ∧ contains "for df in dfs" code = false
  ∧ contains "pd.concat(dfs" code = false
  ∧ contains ("dfs[" +:+ str_of_nat 0 +:+ "]") code = false
  ∧ _required_dfs self code = [None]
  ∧ _required_dfs self code ≠ Some <$> _dfs self.
Proof. repeat split; done. Qed.

(** What that leaves in the namespace: [dfs] is [[None]] and [df] is [None]. *)
Example alias_bound_to_placeholder :
  (run (build_environment (demo_engine [InMemory 1] 0 false)
          "result = df.sum()") 0).1
  = Return (<["df" := VNone]> {[ "dfs" := VList [VNone] ]}).
Proof. vm_compute. reflexivity. Qed.

(** C4: when the code holds neither need-all idiom and the text [dfs[i]] does
    not occur in it, no call of [execute_code] fetches the table at [i]. *)
Theorem unreferenced_table_not_fetched `{Host} (self : CodeExecution)
    (code : string) (i : nat) (w : World) :
  contains "for df in dfs" code = false →
  contains "pd.concat(dfs" code = false →
  contains ("dfs[" +:+ str_of_nat i +:+ "]") code = false →
  ∀ c, Fetch i c ∉ trace (run (execute_code self code) w).2.
Proof.
  intros H1 H2 Hi c. unfold run.
  destruct (execute_code_trace self code {| world := w; trace := [] |})
    as (tr & -> & [k Hk]).
  cbn [trace app]. rewrite elem_of_cons. intros [? | Hin]; [done|].
  assert (Fetch i c ∈ fetches_from 0 (_required_dfs self code)) as Hin'
    by (rewrite Hk; apply elem_of_app; by left).
  apply fetches_from_elem in Hin' as (j & -> & Hj).
  rewrite required_dfs_lookup in Hj by done. cbn [plus] in Hi.
  destruct (_dfs self !! j); [|done].
  cbn [fmap option_fmap option_map] in Hj. by rewrite Hi in Hj.
Qed.

Lemma unreferenced_table_not_fetched_witness :
  let self := demo_engine [Lazy 1; Lazy 2] 0 false in
  let code := "result = dfs[1].sum()" in
  contains "for df in dfs" code = false
  ∧ contains "pd.concat(dfs" code = false
  ∧ contains ("dfs[" +:+ str_of_nat 0 +:+ "]") code = false
  ∧ ∀ c, Fetch 0 c ∉ trace (run (execute_code self code) 0).2.
Proof.
  repeat split; try reflexivity.
  apply (unreferenced_table_not_fetched (H:=demo_host)); reflexivity.
Defined.

Example referenced_table_fetched :
  trace (run (execute_code (demo_engine [Lazy 1; Lazy 2] 0 false)
                "result = dfs[1].sum()") 0).2
  = [ExecuteCode "result = dfs[1].sum()"; Fetch 1 2].
Proof. vm_compute. reflexivity. Qed.

(** C5, as stated, fails: the code holds the concatenate-all idiom and both
    tables are lazily backed, but the first connector's [execute()] raises;
    that exception ends [execute_code], and the second table is never
    fetched. *)
Lemma failed_fetch_leaves_tables_unfetched :
  let self := demo_engine [Lazy 0; Lazy 2] 0 false in
  let code := "result = pd.concat(dfs)" in
  contains "pd.concat(dfs" code = true
  ∧ _dfs self !! 1 = Some (Lazy 2)
  ∧ run (execute_code self code) 0
    = (Raise (OtherException "connection refused"),
       demo_state 0 [ExecuteCode code; Fetch 0 0])
  ∧ Fetch 1 2 ∉ [ExecuteCode code; Fetch 0 0].
Proof.
  repeat split; try (vm_compute; reflexivity).
  intros Hin. repeat (apply elem_of_cons in Hin as [Hin|Hin]; [done|]).
  by apply elem_of_nil in Hin.
Qed.

Section need_all_facts.
Context `{Host}.

Lemma get_originals_from_all (tables : list Table) :
  ∀ position st, ∃ tr,
    _get_originals_from position (Some <$> tables) st
    = ((fetch_tables tables (world st)).1,
       {| world := (fetch_tables tables (world st)).2;
          trace := trace st ++ tr |})
    ∧ tr `prefix_of` fetches_from position (Some <$> tables)
    ∧ (∀ originals, (fetch_tables tables (world st)).1 = Return originals →
         tr = fetches_from position (Some <$> tables)).
Proof.
  induction tables as [|t tables IH]; intros position [w tr0].
  - exists []. simpl. rewrite app_nil_r. by repeat split.
  - rewrite fmap_cons.
    destruct t as [d|c]; cbn [_get_originals_from fetches_from fetch_tables];
      unfold_M.
    + destruct (IH (S position) {| world := w; trace := tr0 |})
        as (tr & -> & Hpre & Hret). simpl in *.
      destruct (fetch_tables tables w) as [[vs|e] w']; simpl in *;
        exists tr; repeat split; try done.
      intros ? _. by apply (Hret vs).
    + destruct (connector_execute c w) as [[[]|e] w1]; simpl.
      2:{ exists [Fetch position c]. split; [done|].
          split; [by apply prefix_cons, prefix_nil | done]. }
      destruct (connector_pandas_df c w1) as [d|e]; simpl.
      2:{ exists [Fetch position c]. split; [done|].
          split; [by apply prefix_cons, prefix_nil | done]. }
      destruct (IH (S position)
                  {| world := w1; trace := tr0 ++ [Fetch position c] |})
        as (tr & -> & Hpre & Hret). simpl in *.
      destruct (fetch_tables tables w1) as [[vs|e] w']; simpl in *;
        exists (Fetch position c :: tr); rewrite <- app_assoc;
        (split; [done|]); (split; [by apply prefix_cons|]); try done.
      intros ? _. by rewrite (Hret vs).
Qed.

End need_all_facts.

(** C5, amended: when the code holds the iterate-over-all idiom or the
    concatenate-all idiom, the analyzer answers with every table, and
    [_get_originals] then does to the table list what the sandbox rule says:
    in list order it calls [execute()] on each lazily-backed table and reads
    its [pandas_df], until one of these calls raises, which ends the run with
    that exception.  When none raises, every lazily-backed table of the list
    has been fetched, whether or not the code indexes it. *)
Theorem need_all_fetches_every_table `{Host} (self : CodeExecution)
    (code : string) (st : State) :
  contains "for df in dfs" code = true ∨ contains "pd.concat(dfs" code = true →
  _required_dfs self code = Some <$> _dfs self
  ∧ ∃ tr,
      _get_originals (_required_dfs self code) st
      = ((fetch_tables (_dfs self) (world st)).1,
         {| world := (fetch_tables (_dfs self) (world st)).2;
            trace := trace st ++ tr |})
      ∧ tr `prefix_of` fetches_from 0 (Some <$> _dfs self)
      ∧ (∀ originals,
           (fetch_tables (_dfs self) (world st)).1 = Return originals →
           ∀ i c, _dfs self !! i = Some (Lazy c) → Fetch i c ∈ tr).
Proof.
  intros Hidiom.
  assert (_required_dfs self code = Some <$> _dfs self) as Hall.
  { apply required_dfs_need_all. apply orb_true_iff. done. }
  split; [done|]. rewrite Hall. unfold _get_originals.
  destruct (get_originals_from_all (_dfs self) 0 st) as (tr & Hrun & Hpre & Hret).
  exists tr. split; [done|]. split; [done|].
  intros originals Hreturn i c Hi. rewrite (Hret originals Hreturn).
  apply fetches_from_elem. exists i. split; [done|].
  by rewrite list_lookup_fmap, Hi.
Qed.

Lemma need_all_fetches_every_table_witness :
  let self := demo_engine [Lazy 1; InMemory 5; Lazy 2] 0 false in
  let code := "result = pd.concat(dfs) if dfs[0] is None else 0" in
  (contains "for df in dfs" code = true ∨ contains "pd.concat(dfs" code = true)
  ∧ _required_dfs self code = Some <$> _dfs self
  ∧ ∃ tr,
      _get_originals (_required_dfs self code) (demo_state 0 [])
      = ((fetch_tables (H:=demo_host) (_dfs self) 0).1,
         demo_state (fetch_tables (H:=demo_host) (_dfs self) 0).2 ([] ++ tr))
      ∧ tr `prefix_of` fetches_from 0 (Some <$> _dfs self)
      ∧ (∀ originals,
           (fetch_tables (H:=demo_host) (_dfs self) 0).1 = Return originals →
           ∀ i c, _dfs self !! i = Some (Lazy c) → Fetch i c ∈ tr).
Proof.
  split; [right; reflexivity|].
  apply (need_all_fetches_every_table (H:=demo_host)
           (demo_engine [Lazy 1; InMemory 5; Lazy 2] 0 false)
           "result = pd.concat(dfs) if dfs[0] is None else 0"
           (demo_state 0 [])).
  right. reflexivity.
Defined.

Example need_all_fetches_both :
  fetch_tables (H:=demo_host) [Lazy 1; InMemory 5; Lazy 2] 0
  = (Return [VObj 101; VObj 5; VObj 102], 2)
  ∧ run (execute_code (demo_engine [Lazy 1; InMemory 5; Lazy 2] 0 false)
           "result = pd.concat(dfs) if dfs[0] is None else 0") 0
    = (Return (VStr "result = pd.concat(dfs) if dfs[0] is None else 0"),
       demo_state 2
         [ExecuteCode "result = pd.concat(dfs) if dfs[0] is None else 0";
          Fetch 0 1; Fetch 2 2]).
Proof. split; vm_compute; reflexivity. Qed.

(** C6: when the executed code leaves the namespace without a binding named
    [result], [execute_code] raises [NoResultFoundError]; when the binding is
    there, [execute_code] returns the bound value as it is. *)
Theorem execute_code_result `{Host} (self : CodeExecution) (code : string)
    (st st1 : State) (environment environment' : gmap string value)
    (w' : World) :
  build_environment self code
    {| world := world st; trace := trace st ++ [ExecuteCode code] |}
  = (Return environment, st1) →
  py_exec code environment (world st1) = (Return environment', w') →
  (environment' !! "result" = None →
   execute_code self code st
   = (Raise (NoResultFoundError "No result returned"),
      {| world := w'; trace := trace st1 |}))
  ∧ (∀ result, environment' !! "result" = Some result →
       execute_code self code st
       = (Return result, {| world := w'; trace := trace st1 |})).
Proof.
  intros Hbuild Hexec. unfold execute_code.
  unfold mbind, M_bind, emit, call_world. rewrite Hbuild, Hexec.
  split; [intros -> | intros result ->]; reflexivity.
Qed.

Lemma execute_code_result_witness :
  let self := demo_engine [InMemory 1] 0 false in
  let code := "print(dfs[0])" in
  let environment : gmap string value :=
    <["df" := VObj 1]> {[ "dfs" := VList [VObj 1] ]} in
  build_environment self code (demo_state 0 ([] ++ [ExecuteCode code]))
  = (Return environment, demo_state 0 [ExecuteCode code])
  ∧ py_exec (Host:=demo_host) code environment 0 = (Return environment, 0)
  ∧ environment !! "result" = None
  ∧ execute_code self code (demo_state 0 [])
    = (Raise (NoResultFoundError "No result returned"),
       demo_state 0 [ExecuteCode code]).
Proof.
  intros self code environment.
  assert (build_environment self code (demo_state 0 ([] ++ [ExecuteCode code]))
          = (Return environment, demo_state 0 [ExecuteCode code])) as Hbuild
    by (vm_compute; reflexivity).
  assert (py_exec (Host:=demo_host) code environment 0
          = (Return environment, 0)) as Hexec by (vm_compute; reflexivity).
  assert (environment !! "result" = None) as Hnone by (vm_compute; reflexivity).
  split; [exact Hbuild | split; [exact Hexec | split; [exact Hnone|]]].
  exact (proj1 (execute_code_result (H:=demo_host) self code (demo_state 0 [])
                  (demo_state 0 [ExecuteCode code])
                  environment environment 0 Hbuild Hexec) Hnone).
Defined.

(** C7, as stated, fails: of two tables the code indexes only the second, so
    exactly one slot of [dfs] is non-empty; the sequence still has two
    elements, and no [df] is bound. *)
Lemma one_resolved_table_without_alias :
  let self := demo_engine [InMemory 1; InMemory 2] 0 false in
  let code := "result = dfs[1].sum()" in
  run (build_environment self code) 0
  = (Return {[ "dfs" := VList [VNone; VObj 2] ]}, demo_state 0 [])
  ∧ non_empty_slots [VNone; VObj 2] = 1
  ∧ ({[ "dfs" := VList [VNone; VObj 2] ]} : gmap string value) !! "df" = None.
Proof. repeat split; vm_compute; reflexivity. Qed.

(** C7, amended: the alias goes by the length of the exposed sequence, which
    is the number of tables.  When [dfs] has exactly one element, [df] is
    bound to that very element; with any other length the builder binds no
    [df] (the namespace it starts from has none). *)
Theorem build_environment_alias `{Host} (self : CodeExecution)
    (code : string) (st st' : State) (environment : gmap string value) :
  get_environment (_additional_dependencies self) !! "df" = None →
  build_environment self code st = (Return environment, st') →
  ∃ original_dfs,
    environment !! "dfs" = Some (VList original_dfs)
    ∧ length original_dfs = length (_dfs self)
    ∧ (∀ df, original_dfs = [df] → environment !! "df" = Some df)
    ∧ (length original_dfs ≠ 1 → environment !! "df" = None).
Proof.
  intros Hbase Hbuild.
  destruct (build_environment_run self code st)
    as (r & w & tr & Hrun & _ & Hret).
  rewrite Hrun in Hbuild. injection Hbuild as -> _.
  destruct (Hret environment eq_refl) as (_ & vs & Hlen & Hdfs & Hdf).
  exists vs. split; [done|]. split; [done|]. split.
  - intros df ->. done.
  - intros Hne. rewrite Hdf. by destruct vs as [|v [|v' vs]].
Qed.

Lemma build_environment_alias_witness :
  let self := demo_engine [Lazy 7] 0 false in
  let code := "result = dfs[0].head()" in
  get_environment (Host:=demo_host) (_additional_dependencies self) !! "df"
  = None
  ∧ build_environment self code (demo_state 0 [])
    = (Return (<["df" := VObj 107]> {[ "dfs" := VList [VObj 107] ]}),
       demo_state 1 [Fetch 0 7])
  ∧ ∃ original_dfs,
      (<["df" := VObj 107]> {[ "dfs" := VList [VObj 107] ]}
         : gmap string value) !! "dfs" = Some (VList original_dfs)
      ∧ length original_dfs = length (_dfs self)
      ∧ (∀ df, original_dfs = [df] →
           (<["df" := VObj 107]> {[ "dfs" := VList [VObj 107] ]}
              : gmap string value) !! "df" = Some df)
      ∧ (length original_dfs ≠ 1 →
           (<["df" := VObj 107]> {[ "dfs" := VList [VObj 107] ]}
              : gmap string value) !! "df" = None).
Proof.
  intros self code.
  assert (get_environment (Host:=demo_host) (_additional_dependencies self)
            !! "df" = None) as Hbase by (vm_compute; reflexivity).
  assert (build_environment self code (demo_state 0 [])
          = (Return (<["df" := VObj 107]> {[ "dfs" := VList [VObj 107] ]}),
             demo_state 1 [Fetch 0 7])) as Hbuild by (vm_compute; reflexivity).
  split; [exact Hbase | split; [exact Hbuild|]].
  exact (build_environment_alias (H:=demo_host) self code _ _ _ Hbase Hbuild).
Defined.

Section loop_facts.
Context `{Host}.

(** The loop, one round unfolded. *)
Lemma retry_loop_round (self : CodeExecution) (retry_count : Z)
    (code_to_run : string) (result : value) (st : State) :
  retry_loop self retry_count code_to_run result st
  = if decide (retry_count ≤ max_retries (_config self))%Z then
      match attempt self code_to_run result st with
      | ((result', None), st') => (Return result', st')
      | ((result', Some e), st') =>
          if is_Exception e then
            match handler self retry_count code_to_run e st' with
            | (Raise e', st'') => (Raise e', st'')
            | (Return code_to_run', st'') =>
                retry_loop self (retry_count + 1) code_to_run' result' st''
            end
          else (Raise e, st')
      end
    else (Return result, st).
Proof.
  rewrite retry_loop_equation_1.
  destruct (Z_le_gt_dec retry_count (max_retries (_config self)));
    case_decide; try lia; simpl; [|done].
  destruct (attempt self code_to_run result st) as [[result' [e|]] st'];
    simpl; [|done].
  destruct (is_Exception e); simpl; [|done].
  by destruct (handler self retry_count code_to_run e st') as [[c|e'] st''].
Qed.

Lemma attempt_attempts (self : CodeExecution) (code_to_run : string)
    (result : value) (st : State) :
  attempts (trace (attempt self code_to_run result st).2)
  = S (attempts (trace st)).
Proof.
  unfold attempt. rewrite <- (execute_code_attempts self code_to_run st).
  by destruct (execute_code self code_to_run st) as [[r|e] st'].
Qed.

Lemma bind_run {A B} (m : M A) (f : A → M B) (st : State) :
  (m ≫= f) st
  = match m st with
    | (Return a, st') => f a st'
    | (Raise e, st') => (Raise e, st')
    end.
Proof. reflexivity. Qed.

Lemma notices_attempts (tr : list event) :
  Forall (λ ev, is_notice ev = true) tr → attempts tr = 0.
Proof.
  induction 1 as [|ev tr Hev _ IH]; [done|].
  change (ev :: tr) with ([ev] ++ tr). rewrite attempts_app, IH.
  by destruct ev.
Qed.

(** One [logger.log] call leaves at most its own entry. *)
Lemma log_run (self : CodeExecution) (message : string) (level : Z)
    (ev : event) (st : State) :
  is_notice ev = true →
  ∃ r w tr,
    log self message level ev st
    = (r, {| world := w; trace := trace st ++ tr |})
    ∧ Forall (λ ev, is_notice ev = true) tr.
Proof.
  intros Hev. unfold log. destruct (logger self) as [logger_log|].
  - unfold_M. destruct (logger_log message level (world st)) as [r w].
    exists r, w, [ev]. split; [done|]. by apply Forall_singleton.
  - exists (Raise AttributeError), (world st), []. unfold raise.
    rewrite app_nil_r. by destruct st.
Qed.

Lemma notify_run (self : CodeExecution) (code_to_run : string) (e : exn)
    (st : State) :
  ∃ r w tr,
    notify self code_to_run e st
    = (r, {| world := w; trace := trace st ++ tr |})
    ∧ Forall (λ ev, is_notice ev = true) tr.
Proof.
  unfold notify. rewrite bind_run.
  destruct (log_run self ("Failed with error: " +:+ format_exc e) ERROR
              (LogError (format_exc e)) st eq_refl)
    as ([[]|e1] & w1 & tr1 & -> & Hall1); [|by exists (Raise e1), w1, tr1].
  destruct (on_failure self) as [callback|].
  - unfold_M. destruct (callback code_to_run (format_exc e) w1) as [r w2].
    exists r, w2, (tr1 ++ [OnFailure code_to_run (format_exc e)]).
    rewrite app_assoc. split; [done|].
    apply Forall_app. split; [done | by apply Forall_singleton].
  - by exists (Return ()), w1, tr1.
Qed.

(** The [except] block leaves notices only, or notices and then one call
    of the corrector, which it makes only with error correction on and
    [retry_count] below [max_retries]; it comes back with new code only in
    the second case. *)
Lemma handler_run (self : CodeExecution) (retry_count : Z)
    (code_to_run : string) (e : exn) (st : State) :
  ∃ r w tr,
    handler self retry_count code_to_run e st
    = (r, {| world := w; trace := trace st ++ tr |})
    ∧ ((Forall (λ ev, is_notice ev = true) tr ∧ ∃ e', r = Raise e')
       ∨ (∃ tr0, tr = tr0 ++ [OnRetry code_to_run e]
                 ∧ Forall (λ ev, is_notice ev = true) tr0
                 ∧ use_error_correction_framework (_config self) = true
                 ∧ (retry_count < max_retries (_config self))%Z
                 ∧ on_retry self ≠ None)).
Proof.
  unfold handler. rewrite bind_run.
  destruct (notify_run self code_to_run e st)
    as ([[]|e1] & w1 & tr1 & -> & Hall1);
    [|exists (Raise e1), w1, tr1; split; [done|]; left; eauto].
  destruct (Z.geb_spec retry_count (max_retries (_config self))) as [Hge|Hlt];
    destruct (use_error_correction_framework (_config self)) eqn:Hecf;
    cbn [negb orb];
    try (exists (Raise e), w1, tr1; split; [done|]; left; eauto).
  rewrite bind_run.
  destruct (log_run self
              ("Failed to execute code retrying with a correction framework "
               +:+ "[retry number: " +:+ str_of_int (retry_count + 1) +:+ "]")
              WARNING (LogWarning (retry_count + 1))
              {| world := w1; trace := trace st ++ tr1 |} eq_refl)
    as ([[]|e2] & w2 & tr2 & -> & Hall2); cbn [trace]; rewrite <- app_assoc.
  2:{ exists (Raise e2), w2, (tr1 ++ tr2). split; [done|]. left.
      split; [by apply Forall_app | eauto]. }
  unfold _retry_run_code. destruct (on_retry self) as [callback|] eqn:Hretry.
  - unfold_M. destruct (callback code_to_run e w2) as [r w3].
    exists r, w3, ((tr1 ++ tr2) ++ [OnRetry code_to_run e]).
    rewrite <- !app_assoc. split; [done|]. right.
    exists (tr1 ++ tr2). rewrite <- !app_assoc.
    split; [done|]. split; [by apply Forall_app|]. split; [done|].
    split; [lia | done].
  - exists (Raise e), w2, (tr1 ++ tr2). split; [done|]. left.
    split; [by apply Forall_app | eauto].
Qed.

Lemma handler_attempts (self : CodeExecution) (retry_count : Z)
    (code_to_run : string) (e : exn) (st : State) :
  attempts (trace (handler self retry_count code_to_run e st).2)
  = attempts (trace st).
Proof.
  destruct (handler_run self retry_count code_to_run e st)
    as (r & w & tr & -> & [[Hall _] | (tr0 & -> & Hall & _)]); simpl;
    rewrite ?attempts_app, (notices_attempts _ Hall); simpl;
    unfold attempts; simpl; lia.
Qed.

(** From any state of the loop, the attempts still to come number at most
    [max_retries + 1 - retry_count]. *)
Lemma retry_loop_attempts (self : CodeExecution) (n : nat) :
  ∀ retry_count code_to_run result st,
    Z.to_nat (max_retries (_config self) + 1 - retry_count) ≤ n →
    attempts (trace (retry_loop self retry_count code_to_run result st).2)
    ≤ attempts (trace st)
      + Z.to_nat (max_retries (_config self) + 1 - retry_count).
Proof.
  induction n as [|n IH]; intros retry_count code_to_run result st Hn;
    rewrite retry_loop_round; case_decide; simpl; try lia.
  pose proof (attempt_attempts self code_to_run result st) as Hatt.
  destruct (attempt self code_to_run result st) as [[result' [e|]] st'];
    simpl in *; [|lia].
  destruct (is_Exception e); simpl; [|lia].
  pose proof (handler_attempts self retry_count code_to_run e st') as Hh.
  destruct (handler self retry_count code_to_run e st') as [[c|e'] st''];
    simpl in *; [|lia].
  specialize (IH (retry_count + 1)%Z c result' st''). lia.
Qed.

(** [execute] ends in the state its loop ends in, and raises what its loop
    raises. *)
Lemma execute_state (self : CodeExecution) (input : string) (w : World) :
  (run (execute self input) w).2
  = (retry_loop self 0 input VNone {| world := w; trace := [] |}).2.
Proof.
  unfold run, execute. unfold_M.
  destruct (retry_loop self 0 input VNone {| world := w; trace := [] |})
    as [[v|e] st']; [|done].
  by destruct (serialize v).
Qed.

Lemma execute_raise (self : CodeExecution) (input : string) (w : World)
    (e : exn) (st : State) :
  retry_loop self 0 input VNone {| world := w; trace := [] |} = (Raise e, st) →
  run (execute self input) w = (Raise e, st).
Proof. intros Hloop. unfold run, execute. unfold_M. by rewrite Hloop. Qed.

Lemma execute_return (self : CodeExecution) (input : string) (w : World)
    (result : value) (st : State) :
  retry_loop self 0 input VNone {| world := w; trace := [] |}
  = (Return result, st) →
  run (execute self input) w
  = (match serialize result with
     | Return serialized =>
         Return {| output := result;
                   success := true;
                   message := "Code Executed Successfully";
                   metadata := {[ "content_type" := VStr "response";
                                  "value" := serialized ]};
                   final_track_output := true |}
     | Raise e => Raise e
     end, st).
Proof.
  intros Hloop. unfold run, execute. unfold_M. rewrite Hloop.
  by destruct (serialize result).
Qed.

End loop_facts.

(** C1: with [max_retries >= 0], whatever the executed code, the validators,
    the callbacks and the corrector do, one call of [execute] enters
    [execute_code] at most [max_retries + 1] times. *)
Theorem execute_attempts_bounded `{Host} (self : CodeExecution)
    (input : string) (w : World) :
  (0 ≤ max_retries (_config self))%Z →
  (Z.of_nat (attempts (trace (run (execute self input) w).2))
   ≤ max_retries (_config self) + 1)%Z.
Proof.
  intros Hmax. rewrite execute_state.
  pose proof (retry_loop_attempts self _ 0%Z input VNone
                {| world := w; trace := [] |} (le_n _)) as Hloop.
  simpl in Hloop. lia.
Qed.

Lemma execute_attempts_bounded_witness :
  let self := demo_engine [InMemory 1] 2 true in
  (0 ≤ max_retries (_config self))%Z
  ∧ (Z.of_nat (attempts (trace (run (execute self "raise ValueError") 0%nat).2))
     ≤ max_retries (_config self) + 1)%Z.
Proof.
  split; [simpl; lia|].
  apply (execute_attempts_bounded (H:=demo_host)). simpl. lia.
Defined.

Example execute_three_attempts :
  run (execute (demo_engine [InMemory 1] 2 true) "raise ValueError") 0
  = (Raise (OtherException "boom"),
     demo_state 0
       [ExecuteCode "raise ValueError";
        LogError "Traceback (most recent call last)"; LogWarning 1;
        OnRetry "raise ValueError" (OtherException "boom");
        ExecuteCode "raise ValueError";
        LogError "Traceback (most recent call last)"; LogWarning 2;
        OnRetry "raise ValueError" (OtherException "boom");
        ExecuteCode "raise ValueError";
        LogError "Traceback (most recent call last)"]).
Proof. vm_compute. reflexivity. Qed.

Section reraise_facts.
Context `{Host}.

Lemma loop_state_outcome (self : CodeExecution) (input : string) (w : World)
    (retry_count : Z) (code_to_run : string) (result : value) (st : State) :
  loop_state self input w retry_count code_to_run result st →
  retry_loop self 0 input VNone {| world := w; trace := [] |}
  = retry_loop self retry_count code_to_run result st.
Proof.
  induction 1 as [|rc code result st result' e st' code' st'' _ IH Hle
                   Hatt Hexc Hhandler]; [done|].
  rewrite IH, retry_loop_round. case_decide; [|lia].
  by rewrite Hatt, Hexc, Hhandler.
Qed.


End reraise_facts.




(** The scenario of the specification: correction disabled, the code raises,
    and the exception is re-raised after the first attempt, with no retry. *)
Example execute_without_correction :
  run (execute (demo_engine [InMemory 1] 3 false) "raise ValueError") 0
  = (Raise (OtherException "boom"),
     demo_state 0 [ExecuteCode "raise ValueError";
                   LogError "Traceback (most recent call last)"]).
Proof. vm_compute. reflexivity. Qed.

(** ** More on the provenance utilities *)

Section nearest_assignment_facts.
Context `{ObjectRepr}.

(** One round of the [try] either relabels as [label_of] says or is skipped
    by the [except AttributeError], and then [label_of] has no label. *)
Lemma try_assignment_label (a : Assign) (target_name : string)
    (nearest : option string) :
  targets a ≠ [] →
  try_assignment a target_name nearest
  = Return (keep_or_relabel target_name nearest a)
  ∨ (try_assignment a target_name nearest = Raise AttributeError
     ∧ label_of target_name a = None).
Proof.
  intros Htargets. unfold try_assignment, keep_or_relabel, label_of.
  destruct a as [ts v ln]; simpl in *.
  destruct ts as [|t ts]; [done|]. simpl.
  destruct v as [c|id|v attr|v slice|func args|v|op|lo up st|elts]; simpl;
    auto; try (destruct v; simpl; auto; destruct t; simpl; auto; fail).
  destruct v as [c|base|v attr|v slice'|func args|v|op|lo up st|elts]; simpl;
    auto.
  destruct t as [c|target|v attr|v slice'|func args|v|op|lo up st|elts]; simpl;
    auto.
  destruct (bool_decide (base = "dfs")), (bool_decide (target = target_name));
    simpl; auto.
  destruct slice; simpl; auto.
Qed.

(** The loop over a stretch of assignments at or before the line, followed
    by one after it. *)
Lemma nearest_loop_until (current_lineno : Z) (target_name : string)
    (l1 : list Assign) (a : Assign) (l2 : list Assign) :
  Forall (before_or_at current_lineno) l1 →
  Forall (λ b, targets b ≠ []) l1 →
  (lineno a > current_lineno)%Z →
  ∀ nearest,
    nearest_loop current_lineno (l1 ++ a :: l2) target_name nearest
    = Return (foldl (keep_or_relabel target_name) nearest l1).
Proof.
  intros Hbefore Htargets Hafter.
  induction l1 as [|b l1 IH]; intros nearest; cbn [nearest_loop app foldl].
  - destruct (Z.gtb_spec (lineno a) current_lineno); [done | lia].
  - apply Forall_cons in Hbefore as [Hb Hbefore].
    apply Forall_cons in Htargets as [Htb Htargets].
    unfold before_or_at in Hb.
    destruct (Z.gtb_spec (lineno b) current_lineno); [lia|].
    destruct (try_assignment_label b target_name nearest Htb)
      as [-> | [-> Hnone]]; [by apply IH|].
    assert (keep_or_relabel target_name nearest b = nearest) as ->
      by (unfold keep_or_relabel; by rewrite Hnone).
    by apply IH.
Qed.

Lemma insert_by_lineno_perm (a : Assign) (l : list Assign) :
  insert_by_lineno a l ≡ₚ a :: l.
Proof.
  induction l as [|b l IH]; simpl; [done|].
  destruct (lineno a <=? lineno b)%Z; [done|].
  by rewrite IH, Permutation_swap.
Qed.

Lemma sorted_by_lineno_perm (l : list Assign) : sorted_by_lineno l ≡ₚ l.
Proof.
  induction l as [|a l IH]; simpl; [done|].
  by rewrite insert_by_lineno_perm, IH.
Qed.

Lemma insert_by_lineno_sorted (a : Assign) (l : list Assign) :
  StronglySorted by_lineno l → StronglySorted by_lineno (insert_by_lineno a l).
Proof.
  induction 1 as [|b l Hl IH Hb]; simpl.
  - repeat constructor.
  - destruct (Z.leb_spec (lineno a) (lineno b)) as [Hle|Hgt].
    + constructor; [by constructor|]. constructor; [done|].
      eapply Forall_impl; [exact Hb|]. unfold by_lineno. intros; lia.
    + constructor; [done|].
      apply insert_by_lineno_Forall; [unfold by_lineno; lia | done].
Qed.

Lemma sorted_by_lineno_sorted (l : list Assign) :
  StronglySorted by_lineno (sorted_by_lineno l).
Proof.
  induction l as [|a l IH]; simpl; [constructor|].
  by apply insert_by_lineno_sorted.
Qed.

(** A list with an assignment after the line splits at the first such. *)
Lemma split_at_first_after (current_lineno : Z) (l : list Assign) :
  Exists (λ a, (lineno a > current_lineno)%Z) l →
  ∃ l1 a l2, l = l1 ++ a :: l2
             ∧ Forall (before_or_at current_lineno) l1
             ∧ (lineno a > current_lineno)%Z.
Proof.
  induction l as [|b l IH]; intros Hex; [by apply Exists_nil in Hex|].
  destruct (decide (lineno b > current_lineno)%Z) as [Hb|Hb].
  - exists [], b, l. by repeat split.
  - apply Exists_cons in Hex as [?|Hex]; [done|].
    destruct (IH Hex) as (l1 & a & l2 & -> & Hl1 & Ha).
    exists (b :: l1), a, l2. repeat split; [|done].
    constructor; [unfold before_or_at; lia | done].
Qed.

(** The last label of a stretch of assignments. *)
Lemma foldl_keep_or_relabel (target_name : string) (l : list Assign) :
  ∀ nearest,
    (foldl (keep_or_relabel target_name) nearest l = nearest
     ∧ Forall (λ b, label_of target_name b = None) l)
    ∨ ∃ l1 a l2 label,
        l = l1 ++ a :: l2
        ∧ label_of target_name a = Some label
        ∧ Forall (λ b, label_of target_name b = None) l2
        ∧ foldl (keep_or_relabel target_name) nearest l = Some label.
Proof.
  induction l as [|b l IH] using rev_ind; intros nearest.
  - left. by split.
  - assert (foldl (keep_or_relabel target_name) nearest (l ++ [b])
            = keep_or_relabel target_name
                (foldl (keep_or_relabel target_name) nearest l) b) as Hsnoc
      by apply foldl_snoc.
    rewrite Hsnoc. unfold keep_or_relabel at 1 3.
    destruct (label_of target_name b) as [label|] eqn:Hb.
    + right. exists l, b, [], label. by repeat split.
    + destruct (IH nearest)
        as [[Hfold Hall] | (l1 & a & l2 & label & -> & Ha & Hl2 & Hfold)].
      * left. split; [done|]. apply Forall_app. by repeat constructor.
      * right. exists l1, a, (l2 ++ [b]), label.
        rewrite <- app_assoc. repeat split; try done.
        apply Forall_app. by repeat constructor.
Qed.

End nearest_assignment_facts.

(** X1: when some assignment stands after [current_lineno] (and every
    assignment has a target), the function returns normally; a label it
    returns is the label of a matching assignment at or before the line that
    no matching assignment at or before the line comes after; and it returns
    [None] only when no assignment at or before the line matches. *)
Theorem nearest_assignment_with_later_line `{ObjectRepr}
    (current_lineno : Z) (assignments : list Assign) (target_name : string) :
  Forall (λ a, targets a ≠ []) assignments →
  Exists (λ a, (lineno a > current_lineno)%Z) assignments →
  ∃ r,
    _get_df_id_by_nearest_assignment current_lineno assignments target_name
    = Return r
    ∧ (∀ label, r = Some label →
         ∃ a, a ∈ assignments
              ∧ before_or_at current_lineno a
              ∧ label_of target_name a = Some label
              ∧ ∀ b, b ∈ assignments → before_or_at current_lineno b →
                     is_Some (label_of target_name b) → by_lineno b a)
    ∧ (r = None →
         ∀ b, b ∈ assignments → before_or_at current_lineno b →
              label_of target_name b = None).
Proof.
  intros Htargets Hlater. unfold _get_df_id_by_nearest_assignment.
  pose proof (sorted_by_lineno_perm assignments) as Hperm.
  pose proof (sorted_by_lineno_sorted assignments) as Hsorted.
  apply (sorted_by_lineno_Forall _ _) in Htargets.
  assert (Exists (λ a, (lineno a > current_lineno)%Z)
            (sorted_by_lineno assignments)) as Hlater'.
  { apply Exists_exists in Hlater as (a & Ha & Hgt).
    apply Exists_exists. exists a. by rewrite Hperm. }
  destruct (split_at_first_after _ _ Hlater')
    as (l1 & a & l2 & Hsplit & Hbefore & Hafter).
  rewrite Hsplit in *. clear Hsplit Hlater Hlater'.
  apply Forall_app in Htargets as [Htargets _].
  rewrite (nearest_loop_until _ _ _ _ _ Hbefore Htargets Hafter).
  assert (∀ b, b ∈ assignments → before_or_at current_lineno b → b ∈ l1)
    as Hin_l1.
  { intros b Hb Hbb. rewrite <- Hperm in Hb.
    apply elem_of_app in Hb as [Hb|Hb]; [done|].
    apply StronglySorted_app_1_r in Hsorted.
    apply StronglySorted_cons in Hsorted as [Hfa _].
    unfold before_or_at in Hbb.
    apply elem_of_cons in Hb as [-> | Hb]; [lia|].
    rewrite Forall_forall in Hfa. specialize (Hfa b Hb).
    unfold by_lineno in Hfa. lia. }
  eexists. split; [done|].
  destruct (foldl_keep_or_relabel target_name l1 None)
    as [[-> Hnone] | (p & x & q & label & -> & Hx & Hq & ->)].
  - split; [done|]. intros _ b Hb Hbb.
    rewrite Forall_forall in Hnone. apply Hnone. by apply Hin_l1.
  - split; [|done]. intros ? [= <-]. exists x.
    assert (x ∈ p ++ x :: q) as Hxin
      by (apply elem_of_app; right; apply elem_of_cons; by left).
    split; [rewrite <- Hperm; apply elem_of_app; by left|].
    split; [by eapply Forall_forall in Hbefore|].
    split; [done|]. intros b Hb Hbb [lb Hlb].
    apply Hin_l1 in Hb; [|done].
    apply StronglySorted_app_1_l in Hsorted.
    apply elem_of_app in Hb as [Hb|Hb].
    + eapply StronglySorted_app_1_elem_of;
        [exact Hsorted | done | apply elem_of_cons; by left].
    + apply elem_of_cons in Hb as [-> | Hb]; [unfold by_lineno; lia|].
      rewrite Forall_forall in Hq. rewrite (Hq b Hb) in Hlb. done.
Qed.

Lemma nearest_assignment_with_later_line_witness :
  Forall (λ a, targets a ≠ []) [y_is_0; x_is_dfs2]
  ∧ Exists (λ a, (lineno a > 2)%Z) [y_is_0; x_is_dfs2]
  ∧ ∃ r,
      _get_df_id_by_nearest_assignment (H:=plain_repr) 2 [y_is_0; x_is_dfs2] "x"
      = Return r
      ∧ (∀ label, r = Some label →
           ∃ a, a ∈ [y_is_0; x_is_dfs2]
                ∧ before_or_at 2 a
                ∧ label_of (H:=plain_repr) "x" a = Some label
                ∧ ∀ b, b ∈ [y_is_0; x_is_dfs2] → before_or_at 2 b →
                       is_Some (label_of (H:=plain_repr) "x" b) → by_lineno b a)
      ∧ (r = None →
           ∀ b, b ∈ [y_is_0; x_is_dfs2] → before_or_at 2 b →
                label_of (H:=plain_repr) "x" b = None).
Proof.
  assert (Forall (λ a, targets a ≠ []) [y_is_0; x_is_dfs2]) as Ht
    by (repeat constructor; discriminate).
  assert (Exists (λ a, (lineno a > 2)%Z) [y_is_0; x_is_dfs2]) as Hl
    by (apply Exists_cons_hd; simpl; lia).
  split; [exact Ht | split; [exact Hl|]].
  exact (nearest_assignment_with_later_line (H:=plain_repr) 2
           [y_is_0; x_is_dfs2] "x" Ht Hl).
Defined.

Lemma nearest_assignment_all_before_witness :
  Forall (λ a, (lineno a ≤ 5)%Z) [x_is_dfs2; y_is_0]
  ∧ _get_df_id_by_nearest_assignment (H:=plain_repr) 5 [x_is_dfs2; y_is_0] "x"
    ≠ Return (Some "dfs[2]").
Proof.
  assert (Forall (λ a, (lineno a ≤ 5)%Z) [x_is_dfs2; y_is_0]) as Hall
    by (repeat constructor; simpl; lia).
  split; [exact Hall|].
  exact (nearest_assignment_all_before (H:=plain_repr) 5 [x_is_dfs2; y_is_0]
           "x" "dfs[2]" Hall).
Defined.

Lemma fmap_NoDup_inj {A B} (f : A → B) (l : list A) (x y : A) :
  NoDup (f <$> l) → x ∈ l → y ∈ l → f x = f y → x = y.
Proof.
  induction l as [|a l IH]; intros Hnd Hx Hy Hf; [by apply elem_of_nil in Hx|].
  rewrite fmap_cons in Hnd. apply NoDup_cons in Hnd as [Hnotin Hnd].
  apply elem_of_cons in Hx as [-> | Hx], Hy as [-> | Hy]; auto.
  - destruct Hnotin. rewrite Hf. by apply list_elem_of_fmap_2.
  - destruct Hnotin. rewrite <- Hf. by apply list_elem_of_fmap_2.
Qed.

(** X3: for assignments on pairwise distinct lines the answer does not
    depend on the order in which the list holds them. *)
Theorem nearest_assignment_order_free `{ObjectRepr} (current_lineno : Z)
    (assignments assignments' : list Assign) (target_name : string) :
  NoDup (lineno <$> assignments) →
  assignments ≡ₚ assignments' →
  _get_df_id_by_nearest_assignment current_lineno assignments target_name
  = _get_df_id_by_nearest_assignment current_lineno assignments' target_name.
Proof.
  intros Hnd Hperm. unfold _get_df_id_by_nearest_assignment.
  assert (sorted_by_lineno assignments = sorted_by_lineno assignments') as ->;
    [|done].
  apply (StronglySorted_unique_strong by_lineno).
  - intros x1 x2 Hx1 Hx2 H12 H21. rewrite sorted_by_lineno_perm in Hx1, Hx2.
    rewrite <- Hperm in Hx2.
    apply (fmap_NoDup_inj lineno assignments); try done.
    unfold by_lineno in *. lia.
  - apply sorted_by_lineno_sorted.
  - apply sorted_by_lineno_sorted.
  - by rewrite !sorted_by_lineno_perm.
Qed.

Lemma nearest_assignment_order_free_witness :
  NoDup (lineno <$> [x_is_dfs2; y_is_0])
  ∧ [x_is_dfs2; y_is_0] ≡ₚ [y_is_0; x_is_dfs2]
  ∧ _get_df_id_by_nearest_assignment (H:=plain_repr) 2 [x_is_dfs2; y_is_0] "x"
    = _get_df_id_by_nearest_assignment (H:=plain_repr) 2 [y_is_0; x_is_dfs2] "x".
Proof.
  assert (NoDup (lineno <$> [x_is_dfs2; y_is_0])) as Hnd
    by (apply NoDup_cons; split;
        [by intros ?%list_elem_of_singleton | apply NoDup_singleton]).
  assert ([x_is_dfs2; y_is_0] ≡ₚ [y_is_0; x_is_dfs2]) as Hperm
    by apply Permutation_swap.
  split; [exact Hnd | split; [exact Hperm|]].
  exact (nearest_assignment_order_free (H:=plain_repr) 2 _ _ "x" Hnd Hperm).
Defined.

(** X4: whatever the node, the generator ends exhausted or by
    [AttributeError]; it raises nothing else. *)
Theorem tokenize_operand_only_attribute_error (operand_node : expr) :
  (_tokenize_operand operand_node).2 = Exhausted
  ∨ (_tokenize_operand operand_node).2 = Raised AttributeError.
Proof.
  induction operand_node as [| | |base IHbase slice _|func _ args| | | |];
    cbn [_tokenize_operand]; auto.
  - destruct (get_value (ONode slice)); [|by right].
    destruct (_tokenize_operand base) as [tokens [|e]]; simpl in *; auto.
  - destruct (get_attr (ONode func)); auto.
Qed.

(** ** More on the analyzer and the sandbox *)

(** X5: the analyzer's answer is aligned with the table list: it has one slot
    per table, and a slot that holds a table holds the table of that very
    position. *)
Theorem required_dfs_aligned `{Host} (self : CodeExecution) (code : string) :
  length (_required_dfs self code) = length (_dfs self)
  ∧ ∀ i t, _required_dfs self code !! i = Some (Some t) →
           _dfs self !! i = Some t.
Proof.
  split; [apply required_dfs_length|]. intros i t.
  destruct (contains "for df in dfs" code) eqn:H1.
  { rewrite required_dfs_need_all by (by rewrite H1).
    rewrite list_lookup_fmap. destruct (_dfs self !! i); simpl;
      [by intros [= ->] | done]. }
  destruct (contains "pd.concat(dfs" code) eqn:H2.
  { rewrite required_dfs_need_all by (by rewrite H1, H2).
    rewrite list_lookup_fmap. destruct (_dfs self !! i); simpl;
      [by intros [= ->] | done]. }
  rewrite required_dfs_lookup by done.
  destruct (_dfs self !! i) as [t'|]; simpl; [|done].
  case_match; [by intros [= ->] | done].
Qed.

Section sandbox_facts.
Context `{Host}.

Lemma get_originals_from_slots (dfs : list (option Table)) :
  ∀ position st original_dfs st',
    _get_originals_from position dfs st = (Return original_dfs, st') →
    Forall2 slot_of dfs original_dfs.
Proof.
  induction dfs as [|df dfs IH]; intros position st vs st'.
  - intros [= <- _]. constructor.
  - cbn [_get_originals_from]. destruct df as [[d|c]|]; unfold_M.
    + destruct (_get_originals_from (S position) dfs st) as [[vs'|e] st1]
        eqn:Hrest; intros [= <- _].
      constructor; [done | by eapply IH].
    + destruct (connector_execute c (world st)) as [[[]|e] w1]; [|done].
      simpl. destruct (connector_pandas_df c w1) as [d|e] eqn:Hdf; [|done].
      simpl.
      destruct (_get_originals_from (S position) dfs _) as [[vs'|e] st1]
        eqn:Hrest; intros [= <- _].
      constructor; [by exists d, w1 | by eapply IH].
    + destruct (_get_originals_from (S position) dfs st) as [[vs'|e] st1]
        eqn:Hrest; intros [= <- _].
      constructor; [done | by eapply IH].
Qed.

Lemma get_originals_from_raise (dfs : list (option Table)) :
  ∀ position st e st',
    _get_originals_from position dfs st = (Raise e, st') →
    ∃ c w, Some (Lazy c) ∈ dfs
           ∧ ((connector_execute c w).1 = Raise e
              ∨ connector_pandas_df c w = Raise e).
Proof.
  induction dfs as [|df dfs IH]; intros position st e st'; [done|].
  cbn [_get_originals_from]. destruct df as [[d|c]|]; unfold_M.
  - destruct (_get_originals_from (S position) dfs st) as [[vs'|e1] st1]
      eqn:Hrest; intros [= <- _].
    destruct (IH _ _ _ _ Hrest) as (c & w & Hin & Hraise).
    exists c, w. split; [by apply elem_of_cons; right | done].
  - destruct (connector_execute c (world st)) as [[[]|e1] w1] eqn:Hexecute;
      simpl.
    2:{ intros [= <- _]. exists c, (world st).
        split; [by apply elem_of_cons; left | left; by rewrite Hexecute]. }
    destruct (connector_pandas_df c w1) as [d|e1] eqn:Hdf; simpl.
    2:{ intros [= <- _]. exists c, w1.
        split; [by apply elem_of_cons; left | by right]. }
    destruct (_get_originals_from (S position) dfs _) as [[vs'|e1] st1]
      eqn:Hrest; intros [= <- _].
    destruct (IH _ _ _ _ Hrest) as (c' & w & Hin & Hraise).
    exists c', w. split; [by apply elem_of_cons; right | done].
  - destruct (_get_originals_from (S position) dfs st) as [[vs'|e1] st1]
      eqn:Hrest; intros [= <- _].
    destruct (IH _ _ _ _ Hrest) as (c & w & Hin & Hraise).
    exists c, w. split; [by apply elem_of_cons; right | done].
Qed.

Lemma get_originals_from_no_lazy (dfs : list (option Table)) :
  Forall (λ df, is_lazy df = false) dfs →
  ∀ position st, (_get_originals_from position dfs st).2 = st.
Proof.
  induction 1 as [|df dfs Hdf _ IH]; intros position st; [done|].
  cbn [_get_originals_from]. unfold mbind, M_bind, mret, M_ret.
  destruct df as [[d|c]|]; try discriminate; simpl;
    specialize (IH (S position) st);
    destruct (_get_originals_from (S position) dfs st) as [[vs|e] st'];
    simpl in *; done.
Qed.

Lemma fetched_positions_fetches_from (dfs : list (option Table)) :
  ∀ position,
    Forall (λ i, position ≤ i) (fetched_positions (fetches_from position dfs))
    ∧ StronglySorted lt (fetched_positions (fetches_from position dfs)).
Proof.
  induction dfs as [|df dfs IH]; intros position;
    [split; constructor|].
  destruct (IH (S position)) as [Hge Hsorted].
  assert (Forall (λ i, position ≤ i)
            (fetched_positions (fetches_from (S position) dfs))) as Hge'
    by (eapply Forall_impl; [exact Hge | simpl; lia]).
  destruct df as [[d|c]|]; cbn [fetches_from]; try done.
  unfold fetched_positions in *. cbn [omap list_omap]. split.
  - constructor; [lia | done].
  - constructor; [done|]. eapply Forall_impl; [exact Hge | simpl; lia].
Qed.

End sandbox_facts.

(** X6: when [_get_originals] returns, its answer is aligned with its input
    slot by slot: an absence marker stays an absence marker, an in-memory
    table is passed on as the same object, and a lazily-backed table gives
    the frame its [pandas_df] returned.  When it raises, the exception is
    one that [execute()] or [pandas_df] of a lazily-backed table of the
    input raised; without such a table it cannot raise. *)
Theorem get_originals_slots `{Host} (dfs : list (option Table)) (st : State) :
  (∀ original_dfs st',
     _get_originals dfs st = (Return original_dfs, st') →
     Forall2 slot_of dfs original_dfs)
  ∧ (∀ e st',
       _get_originals dfs st = (Raise e, st') →
       ∃ c w, Some (Lazy c) ∈ dfs
              ∧ ((connector_execute c w).1 = Raise e
                 ∨ connector_pandas_df c w = Raise e)).
Proof.
  unfold _get_originals. split.
  - intros original_dfs st'. apply get_originals_from_slots.
  - intros e st'. apply get_originals_from_raise.
Qed.

Lemma get_originals_slots_witness :
  _get_originals [None; Some (InMemory 4); Some (Lazy 7)] (demo_state 0 [])
  = (Return [VNone; VObj 4; VObj 107], demo_state 1 [Fetch 2 7])
  ∧ Forall2 (slot_of (H:=demo_host)) [None; Some (InMemory 4); Some (Lazy 7)]
      [VNone; VObj 4; VObj 107]
  ∧ _get_originals [Some (InMemory 4); Some (Lazy 0)] (demo_state 0 [])
    = (Raise (OtherException "connection refused"),
       demo_state 0 [Fetch 1 0])
  ∧ ∃ c w, Some (Lazy c) ∈ [Some (InMemory 4); Some (Lazy 0)]
           ∧ ((connector_execute (Host:=demo_host) c w).1
              = Raise (OtherException "connection refused")
              ∨ connector_pandas_df (Host:=demo_host) c w
                = Raise (OtherException "connection refused")).
Proof.
  assert (_get_originals [None; Some (InMemory 4); Some (Lazy 7)]
            (demo_state 0 [])
          = (Return [VNone; VObj 4; VObj 107], demo_state 1 [Fetch 2 7]))
    as Hreturn by (vm_compute; reflexivity).
  assert (_get_originals [Some (InMemory 4); Some (Lazy 0)] (demo_state 0 [])
          = (Raise (OtherException "connection refused"),
             demo_state 0 [Fetch 1 0])) as Hraise
    by (vm_compute; reflexivity).
  split; [exact Hreturn|].
  split; [exact (proj1 (get_originals_slots (H:=demo_host) _ _) _ _ Hreturn)|].
  split; [exact Hraise|].
  exact (proj2 (get_originals_slots (H:=demo_host) _ _) _ _ Hraise).
Defined.

(** X7: when no slot holds a lazily-backed table, [_get_originals] calls no
    connector: the world and the trace are left as they were. *)
Theorem get_originals_no_lazy `{Host} (dfs : list (option Table))
    (st : State) :
  Forall (λ df, is_lazy df = false) dfs →
  (_get_originals dfs st).2 = st.
Proof. intros Hno. by apply get_originals_from_no_lazy. Qed.

Lemma get_originals_no_lazy_witness :
  Forall (λ df, is_lazy df = false) [None; Some (InMemory 4)]
  ∧ (_get_originals [None; Some (InMemory 4)] (demo_state 3 [])).2
    = demo_state 3 [].
Proof.
  assert (Forall (λ df, is_lazy df = false) [None; Some (InMemory 4)]) as Hno
    by (repeat constructor).
  split; [exact Hno|].
  exact (get_originals_no_lazy (H:=demo_host) _ (demo_state 3 []) Hno).
Defined.

(** X8: in one call of [execute_code] the fetched positions go strictly
    upwards: tables are fetched in list order and none is fetched twice. *)
Theorem execute_code_fetches_in_order `{Host} (self : CodeExecution)
    (code : string) (w : World) :
  StronglySorted lt
    (fetched_positions (trace (run (execute_code self code) w).2)).
Proof.
  unfold run.
  destruct (execute_code_trace self code {| world := w; trace := [] |})
    as (tr & -> & [k Hk]). cbn [trace app].
  change (fetched_positions (ExecuteCode code :: ?l))
    with (fetched_positions l).
  destruct (fetched_positions_fetches_from (_required_dfs self code) 0)
    as [_ Hsorted].
  rewrite Hk in Hsorted. unfold fetched_positions in *.
  rewrite omap_app in Hsorted. by apply StronglySorted_app_1_l in Hsorted.
Qed.

(** X9: with direct-query mode on and an empty table list, [execute_code]
    fails with [IndexError] on [self._dfs[0]] before the code is run: the
    world is untouched. *)
Theorem direct_sql_without_tables `{Host} (self : CodeExecution)
    (code : string) (w : World) :
  direct_sql (_config self) = true →
  _dfs self = [] →
  run (execute_code self code) w
  = (Raise IndexError, {| world := w; trace := [ExecuteCode code] |}).
Proof.
  intros Hsql Hdfs. unfold run, execute_code, build_environment, _get_originals.
  assert (_required_dfs self code = []) as ->.
  { unfold _required_dfs. rewrite Hdfs. by destruct (_ || _). }
  unfold mbind, M_bind, mret, M_ret, raise, emit. simpl.
  by rewrite Hsql, Hdfs.
Qed.

Lemma direct_sql_without_tables_witness :
  let self : CodeExecution (H:=demo_host) :=
    {| _dfs := [];
       _config := {| max_retries := 0;
                     use_error_correction_framework := false;
                     direct_sql := true |};
       _additional_dependencies := [];
       output_type := None;
       logger := None;
       on_failure := None;
       on_retry := None |} in
  direct_sql (_config self) = true
  ∧ _dfs self = []
  ∧ run (execute_code self "result = 1") 0
    = (Raise IndexError, demo_state 0 [ExecuteCode "result = 1"]).
Proof.
  intros self. split; [reflexivity | split; [reflexivity|]].
  exact (direct_sql_without_tables (H:=demo_host) self "result = 1" 0
           eq_refl eq_refl).
Defined.

(** X10: when the builder returns, the namespace handed to the code keeps
    every binding of [get_environment] under any name but [dfs], [df] and
    [execute_sql_query]; with direct-query mode on, the first table is a
    connector that has [execute_direct_sql_query], and [execute_sql_query]
    is that bound method, whether or not the code refers to that table;
    with it off, the builder leaves that name alone.  With direct-query
    mode on and a first table without such a method, as an in-memory frame
    is, the builder raises [AttributeError] once the tables are fetched. *)
Theorem build_environment_namespace `{Host} (self : CodeExecution)
    (code : string) (st : State) :
  (∀ environment st',
     build_environment self code st = (Return environment, st') →
     (∀ name, name ≠ "dfs" → name ≠ "df" → name ≠ "execute_sql_query" →
        environment !! name
        = get_environment (_additional_dependencies self) !! name)
     ∧ (direct_sql (_config self) = true →
        ∃ c, _dfs self !! 0 = Some (Lazy c)
             ∧ has_execute_direct_sql_query c = true
             ∧ environment !! "execute_sql_query"
               = Some (VBoundMethod c "execute_direct_sql_query"))
     ∧ (direct_sql (_config self) = false →
        environment !! "execute_sql_query"
        = get_environment (_additional_dependencies self)
            !! "execute_sql_query"))
  ∧ (direct_sql (_config self) = true →
     (∃ d, _dfs self !! 0 = Some (InMemory d))
     ∨ (∃ c, _dfs self !! 0 = Some (Lazy c)
             ∧ has_execute_direct_sql_query c = false) →
     ∀ original_dfs st1,
       _get_originals (_required_dfs self code) st
       = (Return original_dfs, st1) →
       build_environment self code st = (Raise AttributeError, st1)).
Proof.
  unfold build_environment. rewrite bind_run. split.
  - intros environment st'.
    destruct (_get_originals (_required_dfs self code) st) as [[vs|e] st1];
      [|done].
    destruct (direct_sql (_config self));
      [destruct (_dfs self !! 0) as [[d|c]|]; try done;
       destruct (has_execute_direct_sql_query c) eqn:Hhas; try done|];
      intros [= <- _]; (split; [|split]); try done.
    + intros name H1 H2 H3.
      destruct vs as [|v [|v' vs]];
        by repeat (rewrite lookup_insert_ne by done).
    + intros _. exists c. split; [done|]. split; [done|].
      by rewrite lookup_insert_eq.
    + intros name H1 H2 H3.
      destruct vs as [|v [|v' vs]];
        by repeat (rewrite lookup_insert_ne by done).
    + intros _.
      destruct vs as [|v [|v' vs]];
        by repeat (rewrite lookup_insert_ne by done).
  - intros -> [[d ->] | (c & -> & ->)] original_dfs st1 ->; done.
Qed.

Lemma build_environment_namespace_witness :
  let config := {| max_retries := 0;
                   use_error_correction_framework := false;
                   direct_sql := true |} in
  let self : CodeExecution (H:=demo_host) :=
    {| _dfs := [Lazy 7; InMemory 3]; _config := config;
       _additional_dependencies := []; output_type := None;
       logger := None; on_failure := None; on_retry := None |} in
  let frames_first : CodeExecution (H:=demo_host) :=
    {| _dfs := [InMemory 3; Lazy 7]; _config := config;
       _additional_dependencies := []; output_type := None;
       logger := None; on_failure := None; on_retry := None |} in
  let code := "result = execute_sql_query(dfs[1])" in
  let environment : gmap string value :=
    <["execute_sql_query" := VBoundMethod 7 "execute_direct_sql_query"]>
      {[ "dfs" := VList [VNone; VObj 3] ]} in
  build_environment self code (demo_state 0 [])
  = (Return environment, demo_state 0 [])
  ∧ direct_sql (_config self) = true
  ∧ (∃ c, _dfs self !! 0 = Some (Lazy c)
          ∧ has_execute_direct_sql_query (Host:=demo_host) c = true
          ∧ environment !! "execute_sql_query"
            = Some (VBoundMethod c "execute_direct_sql_query"))
  ∧ _dfs frames_first !! 0 = Some (InMemory 3)
  ∧ _get_originals (_required_dfs frames_first code) (demo_state 0 [])
    = (Return [VNone; VObj 107], demo_state 1 [Fetch 1 7])
  ∧ build_environment frames_first code (demo_state 0 [])
    = (Raise AttributeError, demo_state 1 [Fetch 1 7]).
Proof.
  intros config self frames_first code environment.
  assert (build_environment self code (demo_state 0 [])
          = (Return environment, demo_state 0 [])) as Hbuild
    by (vm_compute; reflexivity).
  assert (_get_originals (_required_dfs frames_first code) (demo_state 0 [])
          = (Return [VNone; VObj 107], demo_state 1 [Fetch 1 7])) as Hfetch
    by (vm_compute; reflexivity).
  split; [exact Hbuild|]. split; [reflexivity|].
  split;
    [exact (proj1 (proj2 (proj1 (build_environment_namespace (H:=demo_host)
                                   self code (demo_state 0 []))
                            _ _ Hbuild)) eq_refl)|].
  split; [reflexivity|]. split; [exact Hfetch|].
  exact (proj2 (build_environment_namespace (H:=demo_host) frames_first code
                  (demo_state 0 []))
           eq_refl (or_introl (ex_intro _ 3 eq_refl)) _ _ Hfetch).
Defined.

(** A connector without [execute_direct_sql_query] as first table: the
    table is fetched, then line 159 raises. *)
Example direct_sql_connector_without_method :
  build_environment
    (H:=demo_host)
    {| _dfs := [Lazy 9];
       _config := {| max_retries := 0;
                     use_error_correction_framework := false;
                     direct_sql := true |};
       _additional_dependencies := []; output_type := None;
       logger := None; on_failure := None; on_retry := None |}
    "result = dfs[0]" (demo_state 0 [])
  = (Raise AttributeError, demo_state 1 [Fetch 0 9]).
Proof. vm_compute. reflexivity. Qed.

(** ** More on the retry loop *)

Section retry_facts.
Context `{Host}.

Lemma corrector_calls_app (tr1 tr2 : list event) :
  corrector_calls (tr1 ++ tr2) = corrector_calls tr1 + corrector_calls tr2.
Proof. unfold corrector_calls. by rewrite filter_app, length_app. Qed.

Lemma fetches_from_corrector_calls (dfs : list (option Table))
    (position : nat) :
  corrector_calls (fetches_from position dfs) = 0.
Proof.
  revert position. induction dfs as [|df dfs IH]; intros position; [done|].
  destruct df as [[d|c]|]; cbn [fetches_from]; apply IH.
Qed.

Lemma attempt_corrector_calls (self : CodeExecution) (code_to_run : string)
    (result : value) (st : State) :
  corrector_calls (trace (attempt self code_to_run result st).2)
  = corrector_calls (trace st).
Proof.
  unfold attempt.
  destruct (execute_code_trace self code_to_run st) as (tr & Htr & [k Hk]).
  pose proof (fetches_from_corrector_calls (_required_dfs self code_to_run) 0)
    as Hnone.
  rewrite Hk, corrector_calls_app in Hnone.
  destruct (execute_code self code_to_run st) as [[r|e] st']; simpl in *;
    rewrite Htr, corrector_calls_app;
    change (ExecuteCode code_to_run :: ?l) with ([ExecuteCode code_to_run] ++ l);
    rewrite corrector_calls_app;
    change (corrector_calls [ExecuteCode code_to_run]) with 0; lia.
Qed.

Lemma attempt_validated (self : CodeExecution) (code_to_run : string)
    (result result' : value) (st st' : State) :
  attempt self code_to_run result st = ((result', None), st') →
  validation_error self result' (world st') = None.
Proof.
  unfold attempt.
  destruct (execute_code self code_to_run st) as [[r|e] st1]; [|done].
  by intros [= <- Hv <-].
Qed.

Lemma notices_corrector_calls (tr : list event) :
  Forall (λ ev, is_notice ev = true) tr → corrector_calls tr = 0.
Proof.
  induction 1 as [|ev tr Hev _ IH]; [done|].
  change (ev :: tr) with ([ev] ++ tr). rewrite corrector_calls_app, IH.
  by destruct ev.
Qed.

(** What the [except] block does to the count of corrector calls. *)
Lemma handler_corrector_calls (self : CodeExecution) (retry_count : Z)
    (code_to_run : string) (e : exn) (st : State) :
  let '(r, st') := handler self retry_count code_to_run e st in
  corrector_calls (trace st) ≤ corrector_calls (trace st')
  ∧ corrector_calls (trace st') ≤ corrector_calls (trace st) + 1
  ∧ (use_error_correction_framework (_config self) = false
     ∨ on_retry self = None →
     corrector_calls (trace st') = corrector_calls (trace st))
  ∧ ((max_retries (_config self) ≤ retry_count)%Z →
     corrector_calls (trace st') = corrector_calls (trace st))
  ∧ (∀ code, r = Return code →
       corrector_calls (trace st') = corrector_calls (trace st) + 1
       ∧ (retry_count < max_retries (_config self))%Z).
Proof.
  destruct (handler_run self retry_count code_to_run e st)
    as (r & w & tr
        & -> & [[Hall [e' ->]] | (tr0 & -> & Hall & Hecf & Hlt & Hretry)]);
    cbn [trace]; rewrite ?corrector_calls_app, (notices_corrector_calls _ Hall).
  - repeat split; try lia; done.
  - change (corrector_calls [OnRetry code_to_run e]) with 1.
    split; [lia|]. split; [lia|]. split; [|split].
    + intros [Hoff | Hnone]; [congruence | done].
    + lia.
    + intros code _. split; lia.
Qed.

(** The loop's bookkeeping, from any of its states. *)
Lemma retry_loop_bookkeeping (self : CodeExecution) (n : nat) :
  ∀ retry_count code_to_run result st,
    Z.to_nat (max_retries (_config self) + 1 - retry_count) ≤ n →
    let '(r, st') := retry_loop self retry_count code_to_run result st in
    corrector_calls (trace st) ≤ corrector_calls (trace st')
    ∧ attempts (trace st') + corrector_calls (trace st)
      ≤ attempts (trace st) + corrector_calls (trace st') + 1
    ∧ corrector_calls (trace st')
      ≤ corrector_calls (trace st)
        + Z.to_nat (max_retries (_config self) - retry_count)
    ∧ (use_error_correction_framework (_config self) = false
       ∨ on_retry self = None →
       corrector_calls (trace st') = corrector_calls (trace st))
    ∧ (∀ v, r = Return v →
         (retry_count ≤ max_retries (_config self))%Z →
         validation_error self v (world st') = None
         ∧ attempts (trace st) < attempts (trace st')).
Proof.
  induction n as [|n IH]; intros retry_count code_to_run result st Hn;
    rewrite retry_loop_round; case_decide;
    try (exfalso; lia);
    try (split; [|split; [|split; [|split]]]; try lia; intros; lia).
  pose proof (attempt_attempts self code_to_run result st) as Hatt.
  pose proof (attempt_corrector_calls self code_to_run result st) as Hcc.
  destruct (attempt self code_to_run result st) as [[result' [e|]] st']
    eqn:Hattempt; simpl in *.
  2:{ split; [|split; [|split; [|split]]]; try lia.
      intros v [= <-] _.
      split; [exact (attempt_validated _ _ _ _ _ _ Hattempt) | lia]. }
  destruct (is_Exception e);
    [|split; [|split; [|split; [|split]]]; try lia; intros; (done || lia)].
  pose proof (handler_corrector_calls self retry_count code_to_run e st')
    as Hh.
  pose proof (handler_attempts self retry_count code_to_run e st') as Hha.
  destruct (handler self retry_count code_to_run e st') as [[code'|e'] st''];
    simpl in Hha.
  - destruct Hh as (Hh1 & Hh2 & Hh3 & _ & Hh4).
    destruct (Hh4 code' eq_refl) as [Hh5 Hlt].
    specialize (IH (retry_count + 1)%Z code' result' st'').
    destruct (retry_loop self (retry_count + 1) code' result' st'')
      as [r stf].
    destruct IH as (I1 & I2 & I3 & I4 & I5); [lia|].
    split; [|split; [|split; [|split]]]; try lia.
    + intros Hoff. rewrite (I4 Hoff). rewrite (Hh3 Hoff). lia.
    + intros v Hv _. destruct (I5 v Hv) as [Iv Ia]; [lia|].
      split; [done | lia].
  - destruct Hh as (Hh1 & Hh2 & Hh3 & Hh6 & _).
    split; [lia|]. split; [lia|].
    split; [destruct (decide (max_retries (_config self) ≤ retry_count)%Z);
            [rewrite Hh6 by done|]; lia|].
    split.
    + intros Hoff. rewrite (Hh3 Hoff). lia.
    + intros v Hv. discriminate.
Qed.

(** What passing the two validator checks amounts to. *)
Lemma validation_error_None (self : CodeExecution) (result : value)
    (w : World) :
  validation_error self result w = None →
  validate_result result w = Return true
  ∧ ∀ output_helper,
      output_type self = Some output_helper → output_helper ≠ "" →
      ∃ validation_errors,
        validate output_helper result w = Return (true, validation_errors).
Proof.
  unfold validation_error. intros Hnone. split.
  - destruct (output_type self) as [output_helper|];
      [case_bool_decide;
       [|destruct (validate output_helper result w) as [[[] errs]|e]; try done]
      |];
      destruct (validate_result result w) as [[]|e]; try done;
      by destruct (mismatch_message result).
  - intros output_helper Htype Hne. rewrite Htype in Hnone.
    case_bool_decide; [done|].
    destruct (validate output_helper result w) as [[[] errs]|e]; try done.
    by exists errs.
Qed.

Lemma log_returns (self : CodeExecution) (message : string) (level : Z)
    (ev : event) (st : State) :
  notifications_return self →
  ∃ st1, log self message level ev st = (Return (), st1).
Proof.
  intros [(logger_log & Hlogger & Hlog) _]. unfold log. rewrite Hlogger.
  unfold_M. specialize (Hlog message level (world st)).
  destruct (logger_log message level (world st)) as [r w1]. simpl in Hlog.
  subst r. eauto.
Qed.

Lemma notify_returns (self : CodeExecution) (code_to_run : string) (e : exn)
    (st : State) :
  notifications_return self →
  ∃ st1, notify self code_to_run e st = (Return (), st1).
Proof.
  intros Hquiet. unfold notify. rewrite bind_run.
  destruct (log_returns self ("Failed with error: " +:+ format_exc e) ERROR
              (LogError (format_exc e)) st Hquiet) as [st1 ->].
  destruct Hquiet as [_ Hcallback].
  destruct (on_failure self) as [callback|]; [|eauto].
  unfold_M. specialize (Hcallback callback eq_refl code_to_run (format_exc e)
                          (world st1)).
  destruct (callback code_to_run (format_exc e) (world st1)) as [r w1].
  simpl in Hcallback. subst r. eauto.
Qed.

(** Without a corrector the [except] block re-raises, whatever the retry
    count, once its notifications have returned. *)
Lemma handler_without_corrector (self : CodeExecution) (retry_count : Z)
    (code_to_run : string) (e : exn) (st : State) :
  on_retry self = None →
  notifications_return self →
  ∃ st', handler self retry_count code_to_run e st = (Raise e, st').
Proof.
  intros Hnone Hquiet. unfold handler. rewrite bind_run.
  destruct (notify_returns self code_to_run e st Hquiet) as [st1 ->].
  destruct (negb _ || _); [by eexists|].
  rewrite bind_run.
  destruct (log_returns self
              ("Failed to execute code retrying with a correction framework "
               +:+ "[retry number: " +:+ str_of_int (retry_count + 1) +:+ "]")
              WARNING (LogWarning (retry_count + 1)) st1 Hquiet) as [st2 ->].
  unfold _retry_run_code. rewrite Hnone. by eexists.
Qed.

End retry_facts.



(** X12: when error correction is switched off, or no corrector is
    configured, [execute] never calls the corrector and makes at most one
    attempt. *)
Theorem execute_without_corrector `{Host} (self : CodeExecution)
    (input : string) (w : World) :
  use_error_correction_framework (_config self) = false
  ∨ on_retry self = None →
  corrector_calls (trace (run (execute self input) w).2) = 0
  ∧ attempts (trace (run (execute self input) w).2) ≤ 1.
Proof.
  intros Hoff. rewrite execute_state.
  pose proof (retry_loop_bookkeeping self _ 0%Z input VNone
                {| world := w; trace := [] |} (le_n _)) as Hloop.
  destruct (retry_loop self 0 input VNone {| world := w; trace := [] |})
    as [r st]; simpl in *;
    destruct Hloop as (_ & H2 & _ & H4 & _); specialize (H4 Hoff);
    change (attempts []) with 0 in H2;
    change (corrector_calls []) with 0 in H2, H4; lia.
Qed.

Lemma execute_without_corrector_witness :
  let self := demo_engine [InMemory 1] 3 false in
  (use_error_correction_framework (_config self) = false
   ∨ on_retry self = None)
  ∧ corrector_calls (trace (run (execute self "raise ValueError") 0).2) = 0
  ∧ attempts (trace (run (execute self "raise ValueError") 0).2) ≤ 1.
Proof.
  split; [left; reflexivity|].
  apply (execute_without_corrector (H:=demo_host)). left. reflexivity.
Defined.

(** X13: with [max_retries >= 0], a result that [execute] returns was
    accepted by the validators in the world the call ends in:
    [validate_result] returned true on it and, when an output type is
    declared, [validate] returned true for that type.  At least one attempt
    was made, the serializer returned on the result, and the envelope
    reports success with the serialized result under [value]. *)
Theorem execute_returns_validated `{Host} (self : CodeExecution)
    (input : string) (w : World) (out : LogicUnitOutput) (st : State) :
  (0 ≤ max_retries (_config self))%Z →
  run (execute self input) w = (Return out, st) →
  validate_result (output out) (world st) = Return true
  ∧ (∀ output_helper,
       output_type self = Some output_helper → output_helper ≠ "" →
       ∃ validation_errors,
         validate output_helper (output out) (world st)
         = Return (true, validation_errors))
  ∧ 1 ≤ attempts (trace st)
  ∧ success out = true
  ∧ message out = "Code Executed Successfully"
  ∧ metadata out !! "content_type" = Some (VStr "response")
  ∧ ∃ serialized, serialize (output out) = Return serialized
                  ∧ metadata out !! "value" = Some serialized.
Proof.
  intros Hmax Hrun.
  pose proof (retry_loop_bookkeeping self _ 0%Z input VNone
                {| world := w; trace := [] |} (le_n _)) as Hloop.
  destruct (retry_loop self 0 input VNone {| world := w; trace := [] |})
    as [[r|e] st1] eqn:Hretry.
  2:{ by rewrite (execute_raise _ _ _ _ _ Hretry) in Hrun. }
  rewrite (execute_return _ _ _ _ _ Hretry) in Hrun.
  destruct (serialize r) as [serialized|e] eqn:Hserialize; [|done].
  injection Hrun as <- <-. simpl.
  destruct Hloop as (_ & _ & _ & _ & H5).
  destruct (H5 r eq_refl Hmax) as [Hval Hatt].
  change (attempts []) with 0 in Hatt.
  destruct (validation_error_None _ _ _ Hval) as [Hresult Hdeclared].
  split; [done|]. split; [done|]. split; [lia|]. split; [done|].
  split; [done|]. split; [apply lookup_insert_eq|].
  exists serialized. split; [done|].
  rewrite lookup_insert_ne by done. apply lookup_singleton_eq.
Qed.

Lemma execute_returns_validated_witness :
  let host : Host := {|
    World := nat;
    connector_execute := λ _ w, (Return (), S w);
    connector_pandas_df := λ c _, Return c;
    has_execute_direct_sql_query := λ _, true;
    get_environment := λ _, ∅;
    py_exec := λ code environment w,
      (Return (<["result" := VStr code]> environment), w);
    (* only a string passes for the declared type *)
    validate := λ _ v _,
      match v with
      | VStr _ => Return (true, [])
      | _ => Return (false, ["not a string"])
      end;
    validate_result := λ v _,
      match v with VNone => Raise AttributeError | _ => Return true end;
    mismatch_message := λ _, Return "mismatch";
    format_exc := λ _, "Traceback";
    serialize := λ v,
      match v with
      | VNone => Raise (OtherException "TypeError")
      | _ => Return (VList [v])
      end |} in
  let self : CodeExecution (H:=host) :=
    {| _dfs := [InMemory 1];
       _config := {| max_retries := 2;
                     use_error_correction_framework := true;
                     direct_sql := false |};
       _additional_dependencies := [];
       output_type := Some "string";
       logger := None; on_failure := None; on_retry := None |} in
  let code := "result = dfs[0]" in
  let out := {| output := VStr code;
                success := true;
                message := "Code Executed Successfully";
                metadata := {[ "content_type" := VStr "response";
                               "value" := VList [VStr code] ]};
                final_track_output := true |} in
  (0 ≤ max_retries (_config self))%Z
  ∧ run (execute self code) 0%nat
    = (Return out, @Build_State host 0 [ExecuteCode code])
  ∧ validate_result (Host:=host) (output out) 0%nat = Return true
  ∧ (∀ output_helper,
       output_type self = Some output_helper → output_helper ≠ "" →
       ∃ validation_errors,
         validate (Host:=host) output_helper (output out) 0%nat
         = Return (true, validation_errors))
  ∧ 1 ≤ attempts [ExecuteCode code].
Proof.
  intros host self code out.
  assert (0 ≤ max_retries (_config self))%Z as Hmax by (simpl; lia).
  assert (run (execute self code) 0%nat
          = (Return out, @Build_State host 0 [ExecuteCode code]))
    as Hrun by (vm_compute; reflexivity).
  split; [exact Hmax | split; [exact Hrun|]].
  pose proof (execute_returns_validated (H:=host) self _ _ _ _ Hmax Hrun)
    as (Hv & Hd & Ha & _).
  split; [exact Hv | split; [exact Hd | exact Ha]].
Defined.

(** X14: with a negative [max_retries] the loop body never runs: [execute]
    makes no attempt and touches nothing, and goes on to serialize [None].
    It raises what the serializer raises on [None]; only if the serializer
    returns there does the call answer, with a success envelope around
    [None]. *)
Theorem execute_negative_max_retries `{Host} (self : CodeExecution)
    (input : string) (w : World) :
  (max_retries (_config self) < 0)%Z →
  run (execute self input) w
  = (match serialize VNone with
     | Return serialized =>
         Return {| output := VNone;
                   success := true;
                   message := "Code Executed Successfully";
                   metadata := {[ "content_type" := VStr "response";
                                  "value" := serialized ]};
                   final_track_output := true |}
     | Raise e => Raise e
     end,
     {| world := w; trace := [] |}).
Proof.
  intros Hneg. apply execute_return.
  rewrite retry_loop_round. case_decide; [lia | done].
Qed.

Lemma execute_negative_max_retries_witness :
  let host : Host := {|
    World := nat;
    connector_execute := λ _ w, (Return (), S w);
    connector_pandas_df := λ c _, Return c;
    has_execute_direct_sql_query := λ _, true;
    get_environment := λ _, ∅;
    py_exec := λ code environment w,
      (Return (<["result" := VStr code]> environment), w);
    validate := λ _ _ _, Return (true, []);
    validate_result := λ _ _, Return true;
    mismatch_message := λ _, Return "mismatch";
    format_exc := λ _, "Traceback";
    (* a serializer that subscripts its argument fails on None *)
    serialize := λ v,
      match v with
      | VNone => Raise (OtherException "TypeError")
      | _ => Return v
      end |} in
  let self : CodeExecution (H:=host) :=
    {| _dfs := [InMemory 1];
       _config := {| max_retries := -1;
                     use_error_correction_framework := true;
                     direct_sql := false |};
       _additional_dependencies := [];
       output_type := None;
       logger := None; on_failure := None; on_retry := None |} in
  (max_retries (_config self) < 0)%Z
  ∧ run (execute self "result = dfs[0]") 0%nat
    = (Raise (OtherException "TypeError"), @Build_State host 0 []).
Proof.
  intros host self.
  assert (max_retries (_config self) < 0)%Z as Hneg by (simpl; lia).
  split; [exact Hneg|].
  exact (execute_negative_max_retries (H:=host) self "result = dfs[0]"
           0%nat Hneg).
Defined.

(** X15: when no corrector is configured, and the logger's [log] and the
    failure callback return whenever they are called, any attempt made
    during a call of [execute] that fails with [e] ends the call by raising
    that same [e], also when correction is enabled and retries are left:
    [_retry_run_code] re-raises instead of looping. *)
Theorem failed_attempt_without_corrector `{Host} (self : CodeExecution)
    (input : string) (w : World) (retry_count : Z) (code_to_run : string)
    (result result' : value) (st st' : State) (e : exn) :
  loop_state self input w retry_count code_to_run result st →
  (retry_count ≤ max_retries (_config self))%Z →
  attempt self code_to_run result st = ((result', Some e), st') →
  on_retry self = None →
  notifications_return self →
  ∃ st'', run (execute self input) w = (Raise e, st'').
Proof.
  intros Hstate Hle Hatt Hnone Hquiet.
  destruct (handler_without_corrector self retry_count code_to_run e st'
              Hnone Hquiet) as [st1 Hhandler].
  exists (if is_Exception e then st1 else st'). apply execute_raise.
  rewrite (loop_state_outcome _ _ _ _ _ _ _ Hstate), retry_loop_round.
  case_decide; [|lia]. rewrite Hatt.
  destruct (is_Exception e); [by rewrite Hhandler | done].
Qed.

Lemma failed_attempt_without_corrector_witness :
  let self : CodeExecution (H:=demo_host) :=
    {| _dfs := [InMemory 1];
       _config := {| max_retries := 3;
                     use_error_correction_framework := true;
                     direct_sql := false |};
       _additional_dependencies := [];
       output_type := None;
       logger := Some (λ _ _ (w : World (Host:=demo_host)), (Return (), S w));
       on_failure :=
         Some (λ _ _ (w : World (Host:=demo_host)), (Return (), S w));
       on_retry := None |} in
  let input := "raise ValueError" in
  loop_state self input 0 0 input VNone (demo_state 0 [])
  ∧ (0 ≤ max_retries (_config self))%Z
  ∧ attempt self input VNone (demo_state 0 [])
    = ((VNone, Some (OtherException "boom")),
       demo_state 0 [ExecuteCode input])
  ∧ on_retry self = None
  ∧ notifications_return self
  ∧ ∃ st'', run (execute self input) 0 = (Raise (OtherException "boom"), st'').
Proof.
  intros self input.
  assert (loop_state self input 0 0 input VNone (demo_state 0 [])) as Hstate
    by apply (loop_start (H:=demo_host)).
  assert (attempt self input VNone (demo_state 0 [])
          = ((VNone, Some (OtherException "boom")),
             demo_state 0 [ExecuteCode input])) as Hatt
    by (vm_compute; reflexivity).
  assert (0 ≤ max_retries (_config self))%Z as Hle by (simpl; lia).
  assert (on_retry self = None) as Hnone by reflexivity.
  assert (notifications_return self) as Hquiet.
  { split.
    - eexists. split; [reflexivity|]. intros ? ? ?. reflexivity.
    - intros callback [= <-] ? ? ?. reflexivity. }
  repeat (split; [assumption|]).
  exact (failed_attempt_without_corrector (H:=demo_host) self input 0 0 input
           VNone VNone _ _ _ Hstate Hle Hatt Hnone Hquiet).
Defined.

(** X16: an exception that is not an [Exception] (a [KeyboardInterrupt], a
    [SystemExit]) is not caught by the loop: it leaves [execute] at once, in
    the state the attempt ended in, with nothing logged, no callback
    notified and no retry. *)
Theorem non_exception_passes_through `{Host} (self : CodeExecution)
    (input : string) (w : World) (retry_count : Z) (code_to_run : string)
    (result result' : value) (st st' : State) (e : exn) :
  loop_state self input w retry_count code_to_run result st →
  (retry_count ≤ max_retries (_config self))%Z →
  attempt self code_to_run result st = ((result', Some e), st') →
  is_Exception e = false →
  run (execute self input) w = (Raise e, st').
Proof.
  intros Hstate Hle Hatt Hbase. apply execute_raise.
  rewrite (loop_state_outcome _ _ _ _ _ _ _ Hstate), retry_loop_round.
  case_decide; [|lia]. by rewrite Hatt, Hbase.
Qed.

Lemma non_exception_passes_through_witness :
  let host : Host := {|
    World := nat;
    connector_execute := λ _ w, (Return (), S w);
    connector_pandas_df := λ c _, Return c;
    has_execute_direct_sql_query := λ _, true;
    get_environment := λ _, ∅;
    py_exec := λ _ _ w, (Raise (NonException "KeyboardInterrupt"), w);
    validate := λ _ _ _, Return (true, []);
    validate_result := λ _ _, Return true;
    mismatch_message := λ _, Return "mismatch";
    format_exc := λ _, "Traceback";
    serialize := λ v, Return v |} in
  let self : CodeExecution (H:=host) :=
    {| _dfs := [];
       _config := {| max_retries := 3;
                     use_error_correction_framework := true;
                     direct_sql := false |};
       _additional_dependencies := [];
       output_type := None;
       logger := Some (λ _ _ w, (Return (), w));
       on_failure := Some (λ _ _ w, (Return (), w));
       on_retry := Some (λ code _ w, (Return code, w)) |} in
  let st' := @Build_State host 0 [ExecuteCode "result = 1"] in
  loop_state self "result = 1" 0 0 "result = 1" VNone (@Build_State host 0 [])
  ∧ (0 ≤ max_retries (_config self))%Z
  ∧ attempt self "result = 1" VNone (@Build_State host 0 [])
    = ((VNone, Some (NonException "KeyboardInterrupt")), st')
  ∧ is_Exception (NonException "KeyboardInterrupt") = false
  ∧ run (execute self "result = 1") 0
    = (Raise (NonException "KeyboardInterrupt"), st').
Proof.
  intros host self st'.
  assert (loop_state self "result = 1" 0 0 "result = 1" VNone
            (@Build_State host 0 [])) as Hstate
    by apply (loop_start (H:=host)).
  assert (attempt self "result = 1" VNone (@Build_State host 0 [])
          = ((VNone, Some (NonException "KeyboardInterrupt")), st')) as Hatt
    by (vm_compute; reflexivity).
  assert (0 ≤ max_retries (_config self))%Z as Hle by (simpl; lia).
  assert (is_Exception (NonException "KeyboardInterrupt") = false) as Hbase
    by reflexivity.
  repeat (split; [assumption|]).
  exact (non_exception_passes_through (H:=host) self "result = 1" 0 0
           "result = 1" VNone VNone _ _ _ Hstate Hle Hatt Hbase).
Defined.

(** ** More on the text-generation client *)

Lemma strip_stop_seq_absent (stop_seq text : string) :
  contains stop_seq text = false →
  strip_stop_seq (Some text) stop_seq = Some text.
Proof. intros Hc. unfold strip_stop_seq. simpl. by rewrite Hc. Qed.

Lemma strip_stop_seq_empty_text (stop_seq : string) :
  strip_stop_seq (Some "") stop_seq = Some "".
Proof.
  change (strip_stop_seq (Some "") stop_seq)
    with (if contains stop_seq ""
          then i ← index stop_seq ""; Some (slice_to i "")
          else Some "").
  destruct (contains stop_seq "") eqn:Hc; [|done].
  destruct (index_of_contained _ _ Hc) as [i Hi]. rewrite Hi.
  by destruct i.
Qed.

Lemma strip_stop_seqs_fixed (stops : list string) (r : string) :
  (∀ s, s ∈ stops → contains s r = false ∨ r = "") →
  foldl strip_stop_seq (Some r) stops = Some r.
Proof.
  induction stops as [|s stops IH]; intros Hclean; [done|].
  cbn [foldl].
  assert (strip_stop_seq (Some r) s = Some r) as ->.
  { destruct (Hclean s) as [Hc | ->]; [by left | |].
    - by apply strip_stop_seq_absent.
    - apply strip_stop_seq_empty_text. }
  apply IH. intros s' Hs'. apply Hclean. by right.
Qed.

Lemma cut_at_first_empty (text r : string) :
  cut_at_first "" text r → r = "".
Proof.
  intros [[Hno _] | (b & Hb & Hmin)].
  - destruct Hno. by exists "", text.
  - specialize (Hmin "" text eq_refl). simpl in Hmin.
    destruct r; [done | simpl in Hmin; lia].
Qed.

Lemma prefix_of_empty (r x : string) : "" = r +:+ x → r = "".
Proof. by destruct r. Qed.

Lemma cut_in_order_fixed (stops : list string) (text r : string) :
  cut_in_order stops text r →
  ∀ s, s ∈ stops → contains s r = false ∨ r = "".
Proof.
  intros Hcut s Hs. destruct (decide (s = "")) as [-> | Hne].
  - right. revert Hs. induction Hcut as [|s0 rest text text' r Hfirst Hrest IH];
      intros Hs; [by apply elem_of_nil in Hs|].
    apply elem_of_cons in Hs as [<- | Hs]; [|by apply IH].
    apply cut_at_first_empty in Hfirst as ->.
    destruct (cut_in_order_prefix _ _ _ Hrest) as [x Hx].
    by apply prefix_of_empty in Hx.
  - left. apply contains_false_occurs. by eapply cut_in_order_clean.
Qed.

(** X17: a non-streaming call always returns a text, never an error; the
    text is a prefix of the generated text; and it is the generated text
    itself when none of the stop sequences occurs in it. *)
Theorem call_returns_prefix `{InferenceClient} (self : HuggingFaceTextGen)
    (prompt : string) :
  streaming self = false →
  ∃ r, call self prompt = Some r
     ∧ (∃ rest,
          generate (prepend_system_prompt prompt) (stop_sequences self)
          = r +:+ rest)
     ∧ ((∀ s, s ∈ stop_sequences self →
           contains s (generate (prepend_system_prompt prompt)
                         (stop_sequences self)) = false) →
        r = generate (prepend_system_prompt prompt) (stop_sequences self)).
Proof.
  intros Hstream. unfold call. rewrite Hstream.
  set (text := generate (prepend_system_prompt prompt) (stop_sequences self)).
  destruct (strip_stop_seqs_cut (stop_sequences self) text)
    as (r & Hr & Hcut).
  exists r. split; [|split].
  - destruct (stop_sequences self) eqn:Hstops; [|exact Hr].
    simpl in Hr. by rewrite Hr.
  - by eapply cut_in_order_prefix.
  - intros Habsent.
    rewrite strip_stop_seqs_fixed in Hr by (intros s Hs; left; auto).
    by injection Hr.
Qed.

Lemma call_returns_prefix_witness :
  let self := {| stop_sequences := ["</s>"]; streaming := false |} in
  streaming self = false
  ∧ ∃ r, call (H:=echo_client) self "SELECT 1</s> and more" = Some r
       ∧ (∃ rest, "SELECT 1</s> and more" = r +:+ rest)
       ∧ ((∀ s, s ∈ stop_sequences self →
             contains s "SELECT 1</s> and more" = false) →
          r = "SELECT 1</s> and more").
Proof.
  split; [reflexivity|].
  apply (call_returns_prefix (H:=echo_client)
           {| stop_sequences := ["</s>"]; streaming := false |}
           "SELECT 1</s> and more").
  reflexivity.
Defined.

(** X18: stripping is idempotent: running the stop-sequence loop again over
    the text a non-streaming call returned gives that text back. *)
Theorem call_strip_idempotent `{InferenceClient} (self : HuggingFaceTextGen)
    (prompt r : string) :
  streaming self = false →
  call self prompt = Some r →
  foldl strip_stop_seq (Some r) (stop_sequences self) = Some r.
Proof.
  intros Hstream. unfold call. rewrite Hstream.
  set (text := generate (prepend_system_prompt prompt) (stop_sequences self)).
  destruct (strip_stop_seqs_cut (stop_sequences self) text)
    as (r' & Hr & Hcut).
  intros Hcall.
  assert (r' = r) as ->.
  { destruct (stop_sequences self) eqn:Hstops.
    - simpl in Hr. congruence.
    - rewrite Hr in Hcall. congruence. }
  apply strip_stop_seqs_fixed. by eapply cut_in_order_fixed.
Qed.

Lemma call_strip_idempotent_witness :
  let self := {| stop_sequences := ["cd"; ""; "bc"]; streaming := false |} in
  streaming self = false
  ∧ call (H:=echo_client) self "abcd" = Some ""
  ∧ foldl strip_stop_seq (Some "") (stop_sequences self) = Some "".
Proof.
  intros self.
  assert (call (H:=echo_client) self "abcd" = Some "") as Hcall
    by reflexivity.
  split; [reflexivity | split; [exact Hcall|]].
  exact (call_strip_idempotent (H:=echo_client) self "abcd" "" eq_refl Hcall).
Defined.

Section construction_facts.

Lemma foldl_set_if_annotated_other (kwargs : list (string * attr_value))
    (name : string) :
  name ∉ kwargs.*1 ∨ name ∉ annotations →
  ∀ self, foldl set_if_annotated self kwargs !! name = self !! name.
Proof.
  induction kwargs as [|[k v] kwargs IH]; intros Hname self; [done|].
  cbn [foldl]. rewrite IH.
  - unfold set_if_annotated. simpl. case_bool_decide; [|done].
    apply lookup_insert_ne. intros ->.
    destruct Hname as [Hname | Hname]; [|done].
    apply Hname. rewrite fmap_cons. by left.
  - destruct Hname as [Hname | Hname]; [left | by right].
    intros Hin. apply Hname. rewrite fmap_cons. by right.
Qed.

Lemma foldl_set_if_annotated_last (before after : list (string * attr_value))
    (name : string) (v : attr_value) :
  name ∈ annotations →
  name ∉ after.*1 →
  ∀ self,
    foldl set_if_annotated self (before ++ (name, v) :: after) !! name
    = Some v.
Proof.
  intros Hann Hafter self. rewrite foldl_app. cbn [foldl].
  rewrite foldl_set_if_annotated_other by (by left).
  unfold set_if_annotated. simpl. rewrite bool_decide_eq_true_2 by done.
  apply lookup_insert_eq.
Qed.

Lemma default_params_lookup (self : gmap string attr_value) :
  (∀ name, name ∈ default_param_names → is_Some (getattr self name)) →
  ∃ params,
    _default_params self = Some params
    ∧ ∀ name, name ∈ default_param_names →
              params !! name = getattr self name.
Proof.
  intros Hall. unfold _default_params.
  assert (NoDup default_param_names) as Hnd by compute_done.
  revert Hall Hnd. generalize default_param_names as names.
  induction names as [|k names IH]; intros Hall Hnd.
  - exists ∅. split; [done|]. by intros name ?%elem_of_nil.
  - apply NoDup_cons in Hnd as [Hk Hnd].
    destruct (Hall k) as [v Hv]; [by left|].
    destruct IH as (params & Hparams & Hlookup);
      [intros name Hin; apply Hall; by right | done |].
    destruct (mapM _ names) as [items|] eqn:Hitems; [|done].
    simpl in Hparams. injection Hparams as <-.
    exists (<[k := v]> (list_to_map items)). split.
    + cbn [mapM]. rewrite Hv. simpl. rewrite Hitems. done.
    + intros name [-> | Hin]%elem_of_cons.
      * by rewrite lookup_insert_eq.
      * rewrite lookup_insert_ne by (intros ->; done). by apply Hlookup.
Qed.

End construction_facts.

(** X19: construction with the package installed succeeds, and the default
    parameters then hold, for each of their ten names, the keyword argument
    given under that name, and the class default when none was given. *)
Theorem init_default_params (inference_server_url : string)
    (kwargs : list (string * attr_value)) :
  ∃ self params,
    __init__ true inference_server_url kwargs = Return self
    ∧ _default_params self = Some params
    ∧ (∀ name, name ∈ default_param_names → name ∉ kwargs.*1 →
         params !! name = class_defaults !! name)
    ∧ (∀ name v before after,
         name ∈ default_param_names →
         kwargs = before ++ (name, v) :: after → name ∉ after.*1 →
         params !! name = Some v).
Proof.
  unfold __init__.
  set (attrs := foldl set_if_annotated ∅ kwargs).
  assert (is_Some (getattr attrs "timeout")) as [timeout Ht].
  { unfold getattr. destruct (attrs !! "timeout"); [eauto|]. by eexists. }
  rewrite Ht.
  set (self := <["client" := AClient inference_server_url timeout]> attrs).
  assert (∀ name, name ∈ default_param_names →
            getattr self name = getattr attrs name) as Hsame.
  { intros name Hin. unfold getattr, self.
    rewrite lookup_insert_ne; [done|]. intros <-. revert Hin. compute_done. }
  assert (∀ name, name ∈ default_param_names →
            is_Some (class_defaults !! name)) as Hdefault.
  { apply Forall_forall. compute_done. }
  destruct (default_params_lookup self) as (params & Hparams & Hlookup).
  { intros name Hin. rewrite Hsame by done. unfold getattr.
    destruct (attrs !! name); [eauto | by apply Hdefault]. }
  exists self, params. split; [done|]. split; [done|]. split.
  - intros name Hin Hnot. rewrite Hlookup, Hsame by done. unfold getattr, attrs.
    rewrite foldl_set_if_annotated_other by (by left). by rewrite lookup_empty.
  - intros name v before after Hin -> Hafter.
    rewrite Hlookup, Hsame by done. unfold getattr, attrs.
    rewrite foldl_set_if_annotated_last; [done | | done].
    revert Hin. generalize name. apply Forall_forall. compute_done.
Qed.

Lemma init_default_params_witness :
  ∃ self params,
    __init__ true "http://127.0.0.1:8080"
      [("temperature", AFloat "0.5"); ("api_key", AStr "k")]
    = Return self
    ∧ _default_params self = Some params
    ∧ params !! "temperature" = Some (AFloat "0.5")
    ∧ params !! "max_new_tokens" = Some (AInt 1024).
Proof.
  destruct (init_default_params "http://127.0.0.1:8080"
              [("temperature", AFloat "0.5"); ("api_key", AStr "k")])
    as (self & params & Hinit & Hparams & Hdefault & Hgiven).
  exists self, params. split; [exact Hinit | split; [exact Hparams|]]. split.
  - apply (Hgiven "temperature" (AFloat "0.5") [] [("api_key", AStr "k")]);
      [compute_done | reflexivity | compute_done].
  - rewrite (Hdefault "max_new_tokens"); [reflexivity | compute_done..].
Defined.

(** X20: construction sets no attribute outside the class's annotations: a
    keyword argument under any other name is dropped. *)
Theorem init_drops_unknown (inference_server_url : string)
    (kwargs : list (string * attr_value)) (self : gmap string attr_value)
    (name : string) :
  __init__ true inference_server_url kwargs = Return self →
  name ∉ annotations →
  self !! name = None.
Proof.
  unfold __init__. destruct (getattr _ "timeout") as [timeout|]; [|done].
  intros [= <-] Hname.
  rewrite lookup_insert_ne.
  - rewrite foldl_set_if_annotated_other by (by right). apply lookup_empty.
  - intros <-. apply Hname. compute_done.
Qed.

Lemma init_drops_unknown_witness :
  __init__ true "http://127.0.0.1:8080" [("api_key", AStr "k")]
  = Return {[ "client" := AClient "http://127.0.0.1:8080" (AInt 120) ]}
  ∧ ("api_key" ∉ annotations)
  ∧ ({[ "client" := AClient "http://127.0.0.1:8080" (AInt 120) ]}
       : gmap string attr_value) !! "api_key" = None.
Proof.
  assert (__init__ true "http://127.0.0.1:8080" [("api_key", AStr "k")]
          = Return {[ "client" := AClient "http://127.0.0.1:8080" (AInt 120) ]})
    as Hinit by (vm_compute; reflexivity).
  assert ("api_key" ∉ annotations) as Hname by compute_done.
  split; [exact Hinit | split; [exact Hname|]].
  exact (init_drops_unknown _ _ _ _ Hinit Hname).
Defined.

(** X21: the client is built on the server URL given to the constructor and
    on the [timeout] keyword argument, or on 120 when none is given; the
    [inference_server_url] attribute itself is not set from that URL and
    stays at its class default unless given among the keyword arguments. *)
Theorem init_client (inference_server_url : string)
    (kwargs : list (string * attr_value)) :
  ∃ self timeout,
    __init__ true inference_server_url kwargs = Return self
    ∧ getattr self "client" = Some (AClient inference_server_url timeout)
    ∧ ("timeout" ∉ kwargs.*1 → timeout = AInt 120)
    ∧ (∀ v before after,
         kwargs = before ++ ("timeout", v) :: after → "timeout" ∉ after.*1 →
         timeout = v)
    ∧ ("inference_server_url" ∉ kwargs.*1 →
       getattr self "inference_server_url" = Some (AStr "")).
Proof.
  unfold __init__.
  set (attrs := foldl set_if_annotated ∅ kwargs).
  assert (is_Some (getattr attrs "timeout")) as [timeout Ht].
  { unfold getattr. destruct (attrs !! "timeout"); [eauto|]. by eexists. }
  rewrite Ht. eexists _, timeout. split; [done|]. split.
  { unfold getattr. by rewrite lookup_insert_eq. }
  split; [|split].
  - intros Hnot. unfold getattr, attrs in Ht.
    rewrite foldl_set_if_annotated_other in Ht by (by left).
    rewrite lookup_empty in Ht. by injection Ht.
  - intros v before after -> Hafter. unfold getattr, attrs in Ht.
    rewrite foldl_set_if_annotated_last in Ht; [|compute_done|done].
    by injection Ht.
  - intros Hnot. unfold getattr. rewrite lookup_insert_ne by done.
    unfold attrs. rewrite foldl_set_if_annotated_other by (by left).
    by rewrite lookup_empty.
Qed.

Lemma init_client_witness :
  ∃ self timeout,
    __init__ true "http://127.0.0.1:8080" [("timeout", AInt 30)] = Return self
    ∧ getattr self "client" = Some (AClient "http://127.0.0.1:8080" timeout)
    ∧ timeout = AInt 30
    ∧ getattr self "inference_server_url" = Some (AStr "").
Proof.
  destruct (init_client "http://127.0.0.1:8080" [("timeout", AInt 30)])
    as (self & timeout & Hinit & Hclient & _ & Hgiven & Hurl).
  exists self, timeout.
  split; [exact Hinit | split; [exact Hclient | split]].
  - apply (Hgiven (AInt 30) [] []); [reflexivity | apply not_elem_of_nil].
  - apply Hurl. compute_done.
Defined.

(** X22: when the code holds neither need-all idiom, the analyzer keeps the
    table at position [i] exactly when the text [dfs[i]] occurs somewhere in
    the code, be it in a comment or inside a longer name. *)
Theorem required_dfs_by_text `{Host} (self : CodeExecution) (code : string)
    (i : nat) (t : Table) :
  contains "for df in dfs" code = false →
  contains "pd.concat(dfs" code = false →
  _required_dfs self code !! i = Some (Some t)
  ↔ _dfs self !! i = Some t
    ∧ contains ("dfs[" +:+ str_of_nat i +:+ "]") code = true.
Proof.
  intros H1 H2. rewrite required_dfs_lookup by done.
  destruct (_dfs self !! i) as [t'|]; cbn [fmap option_fmap option_map].
  - destruct (contains ("dfs[" +:+ str_of_nat i +:+ "]") code); split.
    + by intros [= ->].
    + by intros [[= ->] _].
    + done.
    + by intros [_ ?].
  - split; [done | by intros [? _]].
Qed.

Lemma required_dfs_by_text_witness :
  let self := demo_engine [InMemory 1; Lazy 2] 0 false in
  let code := "result = my_dfs[1]  # not dfs[0]" in
  contains "for df in dfs" code = false
  ∧ contains "pd.concat(dfs" code = false
  ∧ _required_dfs self code = [Some (InMemory 1); Some (Lazy 2)]
  ∧ (_required_dfs self code !! 1 = Some (Some (Lazy 2))
     ↔ _dfs self !! 1 = Some (Lazy 2)
       ∧ contains ("dfs[" +:+ str_of_nat 1 +:+ "]") code = true).
Proof.
  intros self code.
  split; [reflexivity | split; [reflexivity | split; [reflexivity|]]].
  apply (required_dfs_by_text (H:=demo_host) self code 1 (Lazy 2));
    reflexivity.
Defined.
